(** * diffcp: derivative of the cone-program residual map (cpp/src/deriv.cpp)

    A shallow embedding of [deriv.cpp]: the scalar step function [gt], the
    projection derivative [dpi] / [dpi_dense], the residual operator
    [M_operator] / [M_dense] and the two dense solves.

    Scalars.  The source computes on [double].  The properties studied here
    are algebraic identities, so the scalar type is kept abstract: a carrier
    with the operations the source uses ([+], [-], [*], [>=]); the ring and
    order laws of the real numbers are separate classes that a theorem
    assumes only when its proof needs them.

    Sizes.  [u.size()], [v.size()] and the [int] values computed from them
    are natural numbers ([nat]); vectors long enough to overflow [int] are
    outside the model. *)

From Stdlib Require Import List Arith Bool Lia.
From Stdlib Require Import Ring_theory Ring.
From Stdlib Require Import QArith Qcanon Field.
From Corelib Require Import PrimFloat.
Import ListNotations.
Close Scope Q_scope.
Close Scope Qc_scope.

(** ** Scalars *)

Class Scalar : Type := {
  real : Type;
  r0 : real;
  r1 : real;
  radd : real -> real -> real;
  rsub : real -> real -> real;
  rmul : real -> real -> real;
  ropp : real -> real;
  (** the order of the reals *)
  rle : real -> real -> Prop;
  (** the comparison [x >= t] of the source, as a boolean *)
  rgeb : real -> real -> bool
}.

Declare Scope real_scope.
Delimit Scope real_scope with real.
Bind Scope real_scope with real.
Notation "0" := r0 : real_scope.
Notation "1" := r1 : real_scope.
Infix "+" := radd : real_scope.
Infix "-" := rsub : real_scope.
Infix "*" := rmul : real_scope.
Notation "- x" := (ropp x) : real_scope.

(** [x < t] is the strict part of the order. *)
Definition rlt `{Scalar} (x t : real) : Prop := rle x t /\ x <> t.

Class RingLaws (S : Scalar) : Prop := {
  real_ring : ring_theory r0 r1 radd rmul rsub ropp (@eq real)
}.

Class OrderLaws (S : Scalar) : Prop := {
  rle_refl : forall x, rle x x;
  rle_antisym : forall x y, rle x y -> rle y x -> x = y;
  rgeb_spec : forall x t, rgeb x t = true <-> rle t x
}.

(** ** The error monad

    A failed assertion of the linear-algebra layer (a dimension mismatch)
    aborts the computation: [None]. *)

Definition bind {A B : Type} (x : option A) (f : A -> option B) : option B :=
  match x with
  | Some a => f a
  | None => None
  end.

Notation "x <- e ;; k" := (bind e (fun x => k))
  (at level 61, e at next level, right associativity).

Definition guard (b : bool) : option unit := if b then Some tt else None.

(** ** Vectors and matrices

    The linear-algebra library ([Vector], [Matrix], [SparseMatrix] and their
    arithmetic) is not part of the sources.  Its operations are modelled by
    their mathematical meaning, and on operands whose dimensions do not fit
    they fail, as the spec has it: a dimension mismatch is "propagated as a
    fatal failure from the underlying linear-algebra layer", which "must not
    silently truncate or pad". *)

Section LinearAlgebra.
Context {Sc : Scalar}.
Local Open Scope real_scope.

(** [Vector]: a dynamically sized column of scalars; [size] is [length]. *)
Definition Vector : Type := list real.

(** [Matrix]: a dynamically sized dense matrix: its two dimensions and its
    coefficients, here row by row (the storage order is not observable
    through the operations below). *)
Record Matrix : Type := mkMatrix {
  rows : nat;
  cols : nat;
  data : list (list real)
}.

(** [SparseMatrix]: the source uses it for [Q] in the operator form and for
    identity matrices.  Only its dimensions and coefficients are observed,
    so it shares the representation of [Matrix]. *)
Definition SparseMatrix : Type := Matrix.

(** [M(i, j)], read inside the matrix. *)
Definition coeff (M : Matrix) (i j : nat) : real :=
  nth j (nth i (data M) []) 0.

(** The [r] x [c] matrix whose coefficient at [(i, j)] is [f i j]. *)
Definition tabulate (r c : nat) (f : nat -> nat -> real) : Matrix :=
  mkMatrix r c (map (fun i => map (f i) (seq 0 c)) (seq 0 r)).

(** The vector of size [k] whose entry [i] is [f i]. *)
Definition vec_tabulate (k : nat) (f : nat -> real) : Vector :=
  map f (seq 0 k).

(** [f 0 + f 1 + ... + f (k-1)]. *)
Fixpoint sum_n (k : nat) (f : nat -> real) : real :=
  match k with
  | O => 0
  | S k' => sum_n k' f + f k'
  end.

(** [Matrix::Zero(r, c)]. *)
Definition Zero (r c : nat) : Matrix := tabulate r c (fun _ _ => 0).

(** Kronecker's delta. *)
Definition delta (i j : nat) : real := if Nat.eqb i j then 1 else 0.

(** [SparseMatrix eye(k, k); eye.setIdentity();] *)
Definition setIdentity (k : nat) : SparseMatrix := tabulate k k delta.

(** Modelled from the spec: [D.block(i0, j0, p, q) = B] of the
    linear-algebra library.  The block must lie inside [D], and [B] must
    have the size of the block (a block cannot be resized); otherwise the
    assignment fails. *)
Definition assign_block (D : Matrix) (i0 j0 p q : nat) (B : Matrix)
  : option Matrix :=
  _ <- guard ((i0 + p <=? rows D) && (j0 + q <=? cols D)) ;;
  _ <- guard ((rows B =? p) && (cols B =? q)) ;;
  Some (tabulate (rows D) (cols D) (fun i j =>
          if (i0 <=? i) && (i <? i0 + p) && (j0 <=? j) && (j <? j0 + q)
          then coeff B (i - i0) (j - j0)
          else coeff D i j)).

(** Modelled from the spec: [D(i0, j0) = x] of the linear-algebra library;
    it fails on an index out of range. *)
Definition assign_coeff (D : Matrix) (i0 j0 : nat) (x : real)
  : option Matrix :=
  _ <- guard ((i0 <? rows D) && (j0 <? cols D)) ;;
  Some (tabulate (rows D) (cols D) (fun i j =>
          if (i =? i0) && (j =? j0) then x else coeff D i j)).

(** Modelled from the spec: [A - B] and [A + B] of the linear-algebra
    library; they fail unless the operands have the same dimensions. *)
Definition mat_sub (A B : Matrix) : option Matrix :=
  _ <- guard ((rows A =? rows B) && (cols A =? cols B)) ;;
  Some (tabulate (rows A) (cols A) (fun i j => coeff A i j - coeff B i j)).

Definition mat_add (A B : Matrix) : option Matrix :=
  _ <- guard ((rows A =? rows B) && (cols A =? cols B)) ;;
  Some (tabulate (rows A) (cols A) (fun i j => coeff A i j + coeff B i j)).

(** Modelled from the spec: [A * B] of the linear-algebra library; it fails
    unless the inner dimensions agree. *)
Definition mat_mul (A B : Matrix) : option Matrix :=
  _ <- guard (cols A =? rows B) ;;
  Some (tabulate (rows A) (cols B) (fun i j =>
          sum_n (cols A) (fun k => coeff A i k * coeff B k j))).

(** Modelled from the spec: [A * x] of the linear-algebra library, for a
    vector [x] of size [cols A]; it fails on another size. *)
Definition mat_vec (A : Matrix) (x : Vector) : option Vector :=
  _ <- guard (cols A =? length x) ;;
  Some (vec_tabulate (rows A) (fun i =>
          sum_n (cols A) (fun k => coeff A i k * nth k x 0))).

(** Modelled from the spec: [x + y] and [x - y] of the linear-algebra
    library, on vectors of the same size; they fail on different sizes. *)
Definition vec_add (x y : Vector) : option Vector :=
  _ <- guard (length x =? length y) ;;
  Some (vec_tabulate (length x) (fun i => nth i x 0 + nth i y 0)).

Definition vec_sub (x y : Vector) : option Vector :=
  _ <- guard (length x =? length y) ;;
  Some (vec_tabulate (length x) (fun i => nth i x 0 - nth i y 0)).

(** [M.transpose()]. *)
Definition transpose (M : Matrix) : Matrix :=
  tabulate (cols M) (rows M) (fun i j => coeff M j i).

End LinearAlgebra.

(** ** Linear operators *)

Section LinearOperators.
Context {Sc : Scalar}.
Local Open Scope real_scope.

(** Modelled from the spec: the [LinearOperator] class and its constructors
    are declared in a header ([linop.h]) that is not part of the sources at
    hand.  The spec describes "an abstract linear map supporting application
    to a vector, plus algebraic composition (addition/subtraction, operator
    multiplication, block-diagonal stacking of a sequence of operators into
    one operator acting on the concatenation of their domains)".  An operator
    is its two dimensions and its application; an application to a vector of
    the wrong size fails, as every assertion of the layer underneath does.  The
    adjoint application, which no function of [deriv.cpp] calls, is left
    out. *)
Record LinearOperator : Type := mkLinearOperator {
  op_rows : nat;
  op_cols : nat;
  matvec : Vector -> option Vector
}.

(** Modelled from the spec: [identity(k)], the identity on vectors of size
    [k]. *)
Definition identity (k : nat) : LinearOperator :=
  mkLinearOperator k k (fun x => _ <- guard (length x =? k) ;; Some x).

(** Modelled from the spec: [scalar(c)], the 1 x 1 operator that multiplies
    by [c]. *)
Definition scalar (c : real) : LinearOperator :=
  mkLinearOperator 1 1
    (fun x => _ <- guard (length x =? 1) ;; Some (map (rmul c) x)).

(** Modelled from the spec: [aslinearoperator(Q)], a matrix wrapped as the
    operator [x |-> Q x]. *)
Definition aslinearoperator (Q : SparseMatrix) : LinearOperator :=
  mkLinearOperator (rows Q) (cols Q) (mat_vec Q).

(** Modelled from the spec: the sum, difference and product (composition)
    of two operators, each applied lazily. *)
Definition op_add (A B : LinearOperator) : LinearOperator :=
  mkLinearOperator (op_rows A) (op_cols A)
    (fun x => a <- matvec A x ;; b <- matvec B x ;; vec_add a b).

Definition op_sub (A B : LinearOperator) : LinearOperator :=
  mkLinearOperator (op_rows A) (op_cols A)
    (fun x => a <- matvec A x ;; b <- matvec B x ;; vec_sub a b).

Definition op_mul (A B : LinearOperator) : LinearOperator :=
  mkLinearOperator (op_rows A) (op_cols B)
    (fun x => y <- matvec B x ;; matvec A y).

(** Modelled from the spec: [block_diag(ops)] acts on the concatenation of
    the domains: the input is cut into consecutive segments, one per
    operator, and the results are concatenated in the same order. *)
Fixpoint block_diag_matvec (ops : list LinearOperator) (x : Vector)
  : option Vector :=
  match ops with
  | [] => _ <- guard (length x =? 0) ;; Some []
  | op :: rest =>
      _ <- guard (op_cols op <=? length x) ;;
      y <- matvec op (firstn (op_cols op) x) ;;
      _ <- guard (length y =? op_rows op) ;;
      ys <- block_diag_matvec rest (skipn (op_cols op) x) ;;
      Some (y ++ ys)
  end.

Definition block_diag (ops : list LinearOperator) : LinearOperator :=
  mkLinearOperator
    (list_sum (map op_rows ops))
    (list_sum (map op_cols ops))
    (block_diag_matvec ops).

End LinearOperators.

(** ** External collaborators *)

(** The cone-projection derivative, in operator and in dense form
    ([dprojection], [dprojection_dense] of [cones.h]), and the cone
    descriptors they read.  [deriv.cpp] calls them as black boxes, so they are
    parameters of the development. *)
Class ConeProjection (Sc : Scalar) : Type := {
  Cone : Type;
  dprojection : Vector -> list Cone -> bool -> LinearOperator;
  dprojection_dense : Vector -> list Cone -> bool -> Matrix
}.

(** The dense factorization-based solve, [M.colPivHouseholderQr().solve(rhs)]
    of the linear-algebra library: a parameter as well.  [None] is a failed
    assertion of the library. *)
Class DenseQR (Sc : Scalar) : Type := {
  colPivHouseholderQr_solve : Matrix -> Vector -> option Vector
}.

(** ** deriv.cpp *)

Section Deriv.
Context {Sc : Scalar} {CP : ConeProjection Sc} {QR : DenseQR Sc}.
Local Open Scope real_scope.

Definition gt (x t : real) : real :=
  if rgeb x t then 1 else 0.

Definition dpi (u v : Vector) (w : real) (cones : list Cone)
  : LinearOperator :=
  let eye := identity (length u) in
  let D_proj := dprojection v cones true in
  let last := scalar (gt w 0) in
  let linops := [eye; D_proj; last] in
  block_diag linops.

Definition M_operator (Q : SparseMatrix) (cones : list Cone)
  (u v : Vector) (w : real) : LinearOperator :=
  let N := (length u + length v + 1)%nat in
  op_add (op_mul (op_sub (aslinearoperator Q) (identity N))
                 (dpi u v w cones))
         (identity N).

Definition dpi_dense (u v : Vector) (w : real) (cones : list Cone)
  : option Matrix :=
  let n := length u in
  let m := length v in
  let N := (n + m + 1)%nat in
  let D := Zero N N in
  let eye := setIdentity n in
  D <- assign_block D 0 0 n n eye ;;
  D <- assign_block D n n (N - n - 1) (N - n - 1)
         (dprojection_dense v cones true) ;;
  D <- assign_coeff D (N - 1) (N - 1) (gt w 0) ;;
  Some D.

Definition M_dense (Q : Matrix) (cones : list Cone) (u v : Vector) (w : real)
  : option Matrix :=
  let n := length u in
  let m := length v in
  let N := (n + m + 1)%nat in
  let eye := setIdentity N in
  A <- mat_sub Q eye ;;
  D <- dpi_dense u v w cones ;;
  P <- mat_mul A D ;;
  mat_add P eye.

Definition _solve_derivative_dense (M : Matrix) (rhs : Vector)
  : option Vector :=
  colPivHouseholderQr_solve M rhs.

Definition _solve_adjoint_derivative_dense (MT : Matrix) (dz : Vector)
  : option Vector :=
  colPivHouseholderQr_solve MT dz.

End Deriv.

(** ** The statements of the spec, as definitions *)

(** The diagonal block an index falls in: 0 for the free block, 1 for the
    cone block, 2 for the scalar block. *)
Definition block_index (n m i : nat) : nat :=
  if i <? n then 0 else if i <? n + m then 1 else 2.

Section SpecWords.
Context {Sc : Scalar} {CP : ConeProjection Sc} {QR : DenseQR Sc}.
Local Open Scope real_scope.

(** "M = (Q - I) Dpi + I" on matrices of size [N], coefficient by
    coefficient. *)
Definition M_formula (Q D : Matrix) (N : nat) : Matrix :=
  tabulate N N (fun i j =>
    sum_n N (fun k => (coeff Q i k - delta i k) * coeff D k j) + delta i j).

(** "The same three blocks placed on the diagonal (off-diagonal blocks are
    zero)": the identity of size [n], a block [B] of size [m], and the scalar
    [g]. *)
Definition three_blocks (n m : nat) (B : Matrix) (g : real) (i j : nat)
  : real :=
  if (i <? n) && (j <? n) then delta i j
  else if (n <=? i) && (i <? n + m) && (n <=? j) && (j <? n + m)
       then coeff B (i - n) (j - n)
  else if (i =? n + m) && (j =? n + m) then g
  else 0.

(** "Matching dimensions" for the dense collaborator: at the point [v] it
    returns a square matrix of the size of [v]. *)
Definition dense_block_fits (v : Vector) (cones : list Cone) : Prop :=
  rows (dprojection_dense v cones true) = length v /\
  cols (dprojection_dense v cones true) = length v.

(** "Matching dimensions" for the operator collaborator, and its agreement
    with the dense one: the operator is the map [y |-> B y] of the dense
    block [B]. *)
Definition operator_block_fits (v : Vector) (cones : list Cone) : Prop :=
  op_rows (dprojection v cones true) = length v /\
  op_cols (dprojection v cones true) = length v /\
  forall y, length y = length v ->
    matvec (dprojection v cones true) y =
    mat_vec (dprojection_dense v cones true) y.

(** Modelled from the spec: the contract of the dense solve, whose code is
    the linear-algebra library's.  In the words of the spec (section 4.3),
    the solve "does not raise a distinguished error for singular or
    ill-conditioned M" and returns "the vector dz solving M dz = rhs in the
    least-squares sense (exact solution when M is nonsingular)".  In exact
    arithmetic a least-squares solution has residual zero as soon as the
    system has a solution, which is the form kept here. *)
Class DenseQRLaws : Prop := {
  solve_returns : forall (M : Matrix) (rhs : Vector),
    length rhs = rows M ->
    exists x, colPivHouseholderQr_solve M rhs = Some x /\
              length x = cols M;
  solve_residual : forall (M : Matrix) (rhs x : Vector),
    colPivHouseholderQr_solve M rhs = Some x ->
    (exists y, mat_vec M y = Some rhs) ->
    mat_vec M x = Some rhs
}.

End SpecWords.

Arguments DenseQRLaws {Sc} QR.

(** ** Sample instances

    The rational numbers as scalars, the nonnegative orthant as cone, and an
    exact solve by elimination: the concrete inputs on which the theorems
    below are run.  The scalars of the source, IEEE 754 binary64, are an
    instance too: they satisfy no ring law (a sum rounds), so on them the
    functions are only evaluated. *)

Definition binary64 : Scalar := {|
  real := float;
  r0 := 0%float;
  r1 := 1%float;
  radd := PrimFloat.add;
  rsub := PrimFloat.sub;
  rmul := PrimFloat.mul;
  ropp := PrimFloat.opp;
  rle := fun x y => PrimFloat.leb x y = true;
  rgeb := fun x t => PrimFloat.leb t x
|}.

Definition Qc_scalar : Scalar := {|
  real := Qc;
  r0 := Q2Qc 0;
  r1 := Q2Qc 1;
  radd := Qcplus;
  rsub := Qcminus;
  rmul := Qcmult;
  ropp := Qcopp;
  rle := Qcle;
  rgeb := fun x t => Qle_bool t x
|}.

(** The derivative of the projection onto the nonnegative orthant (or its
    dual, which is the same cone): the diagonal matrix of the steps
    [gt v_i 0]; the operator form wraps the dense form.  A cone descriptor
    is the dimension of its block. *)
Definition orthant_dense {Sc : Scalar} (v : Vector) : Matrix :=
  tabulate (length v) (length v) (fun i j =>
    if i =? j then (if rgeb (nth i v r0) r0 then r1 else r0) else r0).

Definition orthant_projection (Sc : Scalar) : ConeProjection Sc := {|
  Cone := nat;
  dprojection := fun v _ _ => aslinearoperator (orthant_dense v);
  dprojection_dense := fun v _ _ => orthant_dense v
|}.

(** A collaborator that does not keep its side of the contract: it returns
    a 1 x 1 block whatever the size of [v]. *)
Definition misfit_projection (Sc : Scalar) : ConeProjection Sc := {|
  Cone := nat;
  dprojection := fun _ _ _ => identity 1;
  dprojection_dense := fun _ _ _ => Zero 1 1
|}.

(** One linear equation [a_1 x_1 + ... + a_k x_k = b]. *)
Definition equation : Type := (list Qc * Qc)%type.

Fixpoint dot (r x : list Qc) : Qc :=
  match r, x with
  | a :: r', b :: x' => (a * b + dot r' x')%Qc
  | _, _ => Q2Qc 0
  end.

(** [x] satisfies the equation [e]. *)
Definition satisfies (x : list Qc) (e : equation) : Prop :=
  dot (fst e) x = snd e.

(** [r' - k r]. *)
Fixpoint row_sub_scaled (r' : list Qc) (k : Qc) (r : list Qc) : list Qc :=
  match r', r with
  | a' :: t', a :: t => (a' - k * a)%Qc :: row_sub_scaled t' k t
  | _, _ => []
  end.

(** Eliminate the first unknown of [e] with the pivot equation [piv], whose
    first coefficient is [p]. *)
Definition eliminate (p : Qc) (piv e : equation) : equation :=
  let k := (hd (Q2Qc 0) (fst e) / p)%Qc in
  (row_sub_scaled (tl (fst e)) k (tl (fst piv)),
   (snd e - k * snd piv)%Qc).

(** Solve a system in [c] unknowns, one unknown at a time. An unknown that
    no equation mentions is set to zero. *)
Fixpoint solve_system (c : nat) (eqs : list equation) : list Qc :=
  match c with
  | O => []
  | S c' =>
      match find (fun e => negb (Qc_eq_bool (hd (Q2Qc 0) (fst e)) (Q2Qc 0)))
                 eqs with
      | None =>
          Q2Qc 0 :: solve_system c' (map (fun e => (tl (fst e), snd e)) eqs)
      | Some piv =>
          let p := hd (Q2Qc 0) (fst piv) in
          let xs := solve_system c' (map (eliminate p piv) eqs) in
          ((snd piv - dot (tl (fst piv)) xs) / p)%Qc :: xs
      end
  end.

Definition equations_of (M : @Matrix Qc_scalar) (rhs : @Vector Qc_scalar)
  : list equation :=
  combine (map (fun i => map (coeff M i) (seq 0 (cols M))) (seq 0 (rows M)))
          rhs.

Definition exact_solve : DenseQR Qc_scalar := {|
  colPivHouseholderQr_solve := fun M rhs =>
    _ <- guard (length rhs =? rows M) ;;
    Some (solve_system (cols M) (equations_of M rhs))
|}.

(** Concrete inputs. *)
Definition rational (z : Z) : Qc := Q2Qc (inject_Z z).

Definition rationals (l : list Z) : @Vector Qc_scalar := map rational l.

(** A 3 x 3 matrix of problem data: [[0 1 2] [3 4 5] [6 7 8]]. *)
Definition sample_Q : @Matrix Qc_scalar :=
  @tabulate Qc_scalar 3 3 (fun i j => rational (Z.of_nat (3 * i + j))).

(** The same data in doubles. *)
Definition sample_Q_doubles : @Matrix binary64 :=
  @mkMatrix binary64 3 3 [[0; 1; 2]; [3; 4; 5]; [6; 7; 8]]%float.

(** A matrix that is not symmetric: [[1 1] [0 1]]. *)
Definition upper_triangular : @Matrix Qc_scalar :=
  @mkMatrix Qc_scalar 2 2 [rationals [1; 1]%Z; rationals [0; 1]%Z].

(** * Properties *)

(** ** The error monad and tabulated vectors and matrices *)

(** Decide the comparisons of natural numbers in the goal, one at a time,
    dropping the impossible cases as they appear. *)
Ltac nat_case :=
  match goal with
  | |- context [?a <? ?b] => destruct (Nat.ltb_spec a b)
  | |- context [?a <=? ?b] => destruct (Nat.leb_spec a b)
  | |- context [?a =? ?b] => destruct (Nat.eqb_spec a b)
  end.
Ltac nat_cases :=
  repeat (nat_case; try (exfalso; lia); cbn [andb]);
  try reflexivity; try lia.

Lemma guard_true (b : bool) : b = true -> guard b = Some tt.
Proof. intros ->; reflexivity. Qed.

Lemma guard_false (b : bool) : b = false -> guard b = None.
Proof. intros ->; reflexivity. Qed.

Lemma guard_Some (b : bool) (t : unit) : guard b = Some t -> b = true.
Proof. destruct b; [reflexivity | discriminate]. Qed.

Section Tabulate.
Context {Sc : Scalar}.
Local Open Scope real_scope.

Lemma length_vec_tabulate (k : nat) (f : nat -> real) :
  length (vec_tabulate k f) = k.
Proof. unfold vec_tabulate. now rewrite length_map, length_seq. Qed.

Lemma nth_vec_tabulate (k : nat) (f : nat -> real) (i : nat) (d : real) :
  i < k -> nth i (vec_tabulate k f) d = f i.
Proof.
  intros Hi. unfold vec_tabulate.
  rewrite (nth_indep _ d (f 0%nat)) by now rewrite length_map, length_seq.
  rewrite map_nth, seq_nth by assumption. reflexivity.
Qed.

Lemma vec_tabulate_ext (k : nat) (f g : nat -> real) :
  (forall i, i < k -> f i = g i) -> vec_tabulate k f = vec_tabulate k g.
Proof.
  intros E. unfold vec_tabulate. apply map_ext_in.
  intros i Hi. apply in_seq in Hi. apply E. lia.
Qed.

Lemma vec_tabulate_nth (x : Vector) (d : real) :
  vec_tabulate (length x) (fun i => nth i x d) = x.
Proof.
  apply (nth_ext _ _ d d).
  - apply length_vec_tabulate.
  - intros i Hi. rewrite length_vec_tabulate in Hi.
    now apply nth_vec_tabulate.
Qed.

Lemma map_add_seq (a s b : nat) :
  map (fun i => (a + i)%nat) (seq s b) = seq (a + s) b.
Proof.
  revert s. induction b as [|b IH]; intros s; cbn [seq map].
  - reflexivity.
  - now rewrite IH, Nat.add_succ_r.
Qed.

Lemma vec_tabulate_app (a b : nat) (f : nat -> real) :
  vec_tabulate (a + b) f =
  vec_tabulate a f ++ vec_tabulate b (fun i => f (a + i)%nat).
Proof.
  unfold vec_tabulate. rewrite seq_app, map_app. f_equal.
  rewrite <- (map_map (fun i => (a + i)%nat) f), map_add_seq.
  now rewrite Nat.add_0_r.
Qed.

Lemma coeff_tabulate (r c : nat) (f : nat -> nat -> real) (i j : nat) :
  i < r -> j < c -> coeff (tabulate r c f) i j = f i j.
Proof.
  intros Hi Hj. unfold coeff, tabulate; cbn [data].
  rewrite (nth_indep _ [] (map (f 0%nat) (seq 0 c)))
    by now rewrite length_map, length_seq.
  rewrite (map_nth (fun i => map (f i) (seq 0 c))), seq_nth by assumption.
  now apply (nth_vec_tabulate c (f (0 + i)%nat)).
Qed.

Lemma tabulate_ext (r c : nat) (f g : nat -> nat -> real) :
  (forall i j, i < r -> j < c -> f i j = g i j) ->
  tabulate r c f = tabulate r c g.
Proof.
  intros E. unfold tabulate. f_equal. apply map_ext_in.
  intros i Hi. apply in_seq in Hi. apply map_ext_in.
  intros j Hj. apply in_seq in Hj. apply E; lia.
Qed.

Lemma sum_n_ext (k : nat) (f g : nat -> real) :
  (forall i, i < k -> f i = g i) -> sum_n k f = sum_n k g.
Proof.
  induction k as [|k IH]; intros E; cbn [sum_n].
  - reflexivity.
  - rewrite IH, E by (intros; try apply E; lia). reflexivity.
Qed.

End Tabulate.

(** ** Finite sums in a ring *)

Section Sums.
Context {Sc : Scalar} {RL : RingLaws Sc}.
Local Open Scope real_scope.

Add Ring real_ring_instance : real_ring.

Lemma sum_n_zero (k : nat) : sum_n k (fun _ => 0) = 0.
Proof. induction k as [|k IH]; cbn [sum_n]; [|rewrite IH]; ring. Qed.

Lemma sum_n_all_zero (k : nat) (f : nat -> real) :
  (forall i, i < k -> f i = 0) -> sum_n k f = 0.
Proof.
  intros E. rewrite (sum_n_ext k f (fun _ => 0)) by assumption.
  apply sum_n_zero.
Qed.

Lemma sum_n_add (k : nat) (f g : nat -> real) :
  sum_n k (fun i => f i + g i) = sum_n k f + sum_n k g.
Proof. induction k as [|k IH]; cbn [sum_n]; [|rewrite IH]; ring. Qed.

Lemma sum_n_scale_l (k : nat) (c : real) (f : nat -> real) :
  sum_n k (fun i => c * f i) = c * sum_n k f.
Proof. induction k as [|k IH]; cbn [sum_n]; [|rewrite IH]; ring. Qed.

Lemma sum_n_scale_r (k : nat) (c : real) (f : nat -> real) :
  sum_n k (fun i => f i * c) = sum_n k f * c.
Proof. induction k as [|k IH]; cbn [sum_n]; [|rewrite IH]; ring. Qed.

Lemma sum_n_swap (a b : nat) (f : nat -> nat -> real) :
  sum_n a (fun i => sum_n b (fun j => f i j)) =
  sum_n b (fun j => sum_n a (fun i => f i j)).
Proof.
  induction a as [|a IH]; cbn [sum_n].
  - now rewrite sum_n_zero.
  - now rewrite sum_n_add, IH.
Qed.

Lemma sum_n_app (a b : nat) (f : nat -> real) :
  sum_n (a + b) f = sum_n a f + sum_n b (fun k => f (a + k)%nat).
Proof.
  induction b as [|b IH].
  - rewrite Nat.add_0_r. cbn [sum_n]. ring.
  - rewrite Nat.add_succ_r. cbn [sum_n]. rewrite IH. ring.
Qed.

(** A sum against Kronecker's delta selects one term. *)
Lemma sum_n_delta_l (k i : nat) (f : nat -> real) :
  i < k -> sum_n k (fun j => delta i j * f j) = f i.
Proof.
  induction k as [|k IH]; intros Hi; [lia|]. cbn [sum_n].
  destruct (Nat.eq_dec i k) as [->|Hne].
  - rewrite sum_n_all_zero.
    + unfold delta. rewrite Nat.eqb_refl. ring.
    + intros j Hj. unfold delta.
      rewrite (proj2 (Nat.eqb_neq k j)) by lia. ring.
  - rewrite IH by lia. unfold delta at 1.
    rewrite (proj2 (Nat.eqb_neq i k)) by assumption. ring.
Qed.

(** When [f] and [g] agree, the terms [(f k - g k) * h k] add nothing. *)
Lemma sum_n_cancel (k : nat) (f g h : nat -> real) (d : real) :
  (forall i, i < k -> f i = g i) ->
  sum_n k (fun i => (f i - g i) * h i) + d = d.
Proof.
  intros E. rewrite sum_n_all_zero; [ring |].
  intros i Hi. rewrite E by assumption. ring.
Qed.

End Sums.

(** ** The dense projection derivative *)

Section DenseDpi.
Context {Sc : Scalar} {CP : ConeProjection Sc}.

Lemma coeff_Zero (r c i j : nat) : i < r -> j < c -> coeff (Zero r c) i j = r0.
Proof. intros Hi Hj. unfold Zero. now rewrite coeff_tabulate. Qed.

Lemma coeff_setIdentity (k i j : nat) :
  i < k -> j < k -> coeff (setIdentity k) i j = delta i j.
Proof. intros Hi Hj. unfold setIdentity. now rewrite coeff_tabulate. Qed.

(** Whatever the collaborator returns, a result of [dpi_dense] has the size
    computed from [u] and [v]. *)
Lemma dpi_dense_size (u v : Vector) (w : real) (cones : list Cone)
  (D : Matrix) :
  dpi_dense u v w cones = Some D ->
  rows D = length u + length v + 1 /\ cols D = length u + length v + 1.
Proof.
  unfold dpi_dense, assign_block, assign_coeff.
  repeat match goal with
  | |- context [guard ?b] => destruct (guard b); cbn [bind]
  end; try discriminate.
  intros H; injection H as <-. split; reflexivity.
Qed.

Lemma assign_block_ok (D : Matrix) (i0 j0 p q : nat) (B : Matrix) :
  i0 + p <= rows D -> j0 + q <= cols D -> rows B = p -> cols B = q ->
  assign_block D i0 j0 p q B =
  Some (tabulate (rows D) (cols D) (fun i j =>
          if (i0 <=? i) && (i <? i0 + p) && (j0 <=? j) && (j <? j0 + q)
          then coeff B (i - i0) (j - j0)
          else coeff D i j)).
Proof.
  intros H1 H2 H3 H4. unfold assign_block.
  rewrite !guard_true; [reflexivity | |]; nat_cases.
Qed.

Lemma assign_coeff_ok (D : Matrix) (i0 j0 : nat) (x : real) :
  i0 < rows D -> j0 < cols D ->
  assign_coeff D i0 j0 x =
  Some (tabulate (rows D) (cols D) (fun i j =>
          if (i =? i0) && (j =? j0) then x else coeff D i j)).
Proof.
  intros H1 H2. unfold assign_coeff.
  rewrite guard_true; [reflexivity |]; nat_cases.
Qed.

(** The blocks that [dpi_dense] writes, in closed form. *)
Lemma dpi_dense_blocks (u v : Vector) (w : real) (cones : list Cone) :
  dense_block_fits v cones ->
  dpi_dense u v w cones =
  Some (tabulate (length u + length v + 1) (length u + length v + 1)
          (three_blocks (length u) (length v)
             (dprojection_dense v cones true) (gt w r0))).
Proof.
  intros [Hr Hc]. unfold dpi_dense.
  set (n := length u) in *. set (m := length v) in *.
  rewrite assign_block_ok; cbn [rows cols Zero setIdentity tabulate];
    try lia; try reflexivity.
  cbn [bind].
  rewrite assign_block_ok; cbn [rows cols tabulate]; try lia.
  cbn [bind].
  rewrite assign_coeff_ok; cbn [rows cols tabulate]; try lia.
  cbn [bind]. f_equal. apply tabulate_ext. intros i j Hi Hj.
  rewrite !coeff_tabulate by assumption.
  replace (n + m + 1 - n - 1) with m by lia.
  replace (n + m + 1 - 1) with (n + m) by lia.
  unfold three_blocks. cbn [Nat.add Nat.leb].
  nat_cases; rewrite ?Nat.sub_0_r;
    try (rewrite coeff_setIdentity by lia); try reflexivity;
    try (apply coeff_Zero; lia).
Qed.

End DenseDpi.

(** ** The dense residual operator *)

Section DenseM.
Context {Sc : Scalar} {CP : ConeProjection Sc}.

Lemma mat_sub_ok (A B : Matrix) :
  rows A = rows B -> cols A = cols B ->
  mat_sub A B =
  Some (tabulate (rows A) (cols A)
          (fun i j => (coeff A i j - coeff B i j)%real)).
Proof.
  intros Hr Hc. unfold mat_sub.
  rewrite guard_true; [reflexivity |].
  apply andb_true_intro; split; now apply Nat.eqb_eq.
Qed.

Lemma mat_add_ok (A B : Matrix) :
  rows A = rows B -> cols A = cols B ->
  mat_add A B =
  Some (tabulate (rows A) (cols A)
          (fun i j => (coeff A i j + coeff B i j)%real)).
Proof.
  intros Hr Hc. unfold mat_add.
  rewrite guard_true; [reflexivity |].
  apply andb_true_intro; split; now apply Nat.eqb_eq.
Qed.

Lemma mat_mul_ok (A B : Matrix) :
  cols A = rows B ->
  mat_mul A B =
  Some (tabulate (rows A) (cols B) (fun i j =>
          sum_n (cols A) (fun k => (coeff A i k * coeff B k j)%real))).
Proof.
  intros H. unfold mat_mul.
  rewrite guard_true; [reflexivity | now apply Nat.eqb_eq].
Qed.

Lemma mat_vec_ok (A : Matrix) (x : Vector) :
  cols A = length x ->
  mat_vec A x =
  Some (vec_tabulate (rows A) (fun i =>
          sum_n (cols A) (fun k => (coeff A i k * nth k x r0)%real))).
Proof.
  intros H. unfold mat_vec.
  rewrite guard_true; [reflexivity | now apply Nat.eqb_eq].
Qed.

(** A [Q] of another size than the [N] computed from [u] and [v] makes
    [Q - eye] fail. *)
Lemma mat_sub_mismatch (A B : Matrix) :
  rows A <> rows B \/ cols A <> cols B -> mat_sub A B = None.
Proof.
  intros H. unfold mat_sub. rewrite guard_false; [reflexivity |].
  apply andb_false_iff. destruct H as [H | H]; [left | right];
    now apply Nat.eqb_neq.
Qed.

Lemma M_dense_mismatch (Q : Matrix) (cones : list Cone) (u v : Vector)
  (w : real) :
  rows Q <> length u + length v + 1 \/ cols Q <> length u + length v + 1 ->
  M_dense Q cones u v w = None.
Proof.
  intros H. unfold M_dense. now rewrite mat_sub_mismatch.
Qed.

(** A result of [M_dense] has the size computed from [u] and [v], and so
    has the [Q] it was computed from. *)
Lemma M_dense_size (Q : Matrix) (cones : list Cone) (u v : Vector)
  (w : real) (M : Matrix) :
  M_dense Q cones u v w = Some M ->
  (rows M = length u + length v + 1 /\ cols M = length u + length v + 1) /\
  (rows Q = length u + length v + 1 /\ cols Q = length u + length v + 1).
Proof.
  intros H.
  assert (HQ : rows Q = length u + length v + 1 /\
               cols Q = length u + length v + 1).
  { destruct (Nat.eq_dec (rows Q) (length u + length v + 1)) as [Hr | Hr];
    destruct (Nat.eq_dec (cols Q) (length u + length v + 1)) as [Hc | Hc];
    try (split; assumption);
    rewrite M_dense_mismatch in H by (auto; fail); discriminate. }
  split; [| exact HQ]. destruct HQ as [Hr Hc].
  unfold M_dense in H.
  rewrite mat_sub_ok in H by (cbn [setIdentity rows cols tabulate]; assumption).
  cbn [bind] in H.
  destruct (dpi_dense u v w cones) as [D |] eqn:HD; [| discriminate].
  cbn [bind] in H. unfold mat_mul, mat_add in H.
  repeat match type of H with
  | context [guard ?b] => destruct (guard b); cbn [bind] in H
  end; try discriminate.
  injection H as <-. cbn [rows cols tabulate].
  destruct (dpi_dense_size u v w cones D HD) as [_ HDc]. now rewrite Hr, HDc.
Qed.

(** [M_dense] in closed form, for inputs of matching dimensions. *)
Lemma M_dense_closed (Q : Matrix) (cones : list Cone) (u v : Vector)
  (w : real) (D : Matrix) :
  rows Q = length u + length v + 1 ->
  cols Q = length u + length v + 1 ->
  dpi_dense u v w cones = Some D ->
  M_dense Q cones u v w = Some (M_formula Q D (length u + length v + 1)).
Proof.
  intros Hr Hc HD. destruct (dpi_dense_size u v w cones D HD) as [HDr HDc].
  unfold M_dense.
  rewrite mat_sub_ok by (cbn [setIdentity rows cols tabulate]; assumption).
  cbn [bind]. rewrite HD. cbn [bind].
  rewrite mat_mul_ok by (cbn [rows cols tabulate]; congruence).
  cbn [bind].
  rewrite mat_add_ok
    by (cbn [setIdentity rows cols tabulate]; congruence).
  cbn [rows cols tabulate]. unfold M_formula. rewrite Hr, HDc. f_equal.
  apply tabulate_ext. intros i j Hi Hj.
  rewrite coeff_tabulate by congruence.
  rewrite coeff_setIdentity by assumption. f_equal.
  rewrite Hc. apply sum_n_ext. intros k Hk.
  rewrite coeff_tabulate by congruence.
  now rewrite coeff_setIdentity by assumption.
Qed.

End DenseM.

(** ** The operator form of the projection derivative *)

Section OperatorDpi.
Context {Sc : Scalar} {CP : ConeProjection Sc}.

Lemma firstn_exact (a b : Vector) : firstn (length a) (a ++ b) = a.
Proof. induction a as [|h a IH]; cbn; [now destruct b | now rewrite IH]. Qed.

Lemma skipn_exact (a b : Vector) : skipn (length a) (a ++ b) = b.
Proof. induction a as [|h a IH]; cbn; [reflexivity | exact IH]. Qed.

Lemma identity_apply (k : nat) (x : Vector) :
  length x = k -> matvec (identity k) x = Some x.
Proof.
  intros H. cbn [matvec identity].
  rewrite guard_true; [reflexivity | now apply Nat.eqb_eq].
Qed.

(** [dpi] cuts its argument into the three segments and applies one
    sub-operator to each. *)
Lemma dpi_apply (u v : Vector) (w : real) (cones : list Cone)
  (xu xv y : Vector) (z : real) :
  length xu = length u ->
  length xv = op_cols (dprojection v cones true) ->
  matvec (dprojection v cones true) xv = Some y ->
  length y = op_rows (dprojection v cones true) ->
  matvec (dpi u v w cones) (xu ++ xv ++ [z]) =
  Some (xu ++ y ++ [(gt w r0 * z)%real]).
Proof.
  intros Hu Hv Hy Hly.
  unfold dpi, block_diag. cbn [matvec block_diag_matvec].
  cbn [op_cols op_rows identity scalar]. rewrite <- Hu.
  rewrite firstn_exact, skipn_exact.
  rewrite guard_true by (apply Nat.leb_le; rewrite length_app; lia).
  cbn [bind]. fold (identity (length xu)).
  rewrite identity_apply by reflexivity.
  cbn [bind]. rewrite guard_true by apply Nat.eqb_refl.
  cbn [bind]. rewrite <- Hv.
  rewrite firstn_exact, skipn_exact.
  rewrite guard_true by (apply Nat.leb_le; rewrite length_app; lia).
  cbn [bind]. rewrite Hy. cbn [bind].
  rewrite guard_true by (now apply Nat.eqb_eq).
  cbn [bind length Nat.leb firstn skipn guard Nat.eqb map matvec app].
  reflexivity.
Qed.

End OperatorDpi.

(** ** The two forms of the residual operator agree *)

Section Equivalence.
Context {Sc : Scalar} {RL : RingLaws Sc} {CP : ConeProjection Sc}.

Add Ring real_ring_equivalence : real_ring.

Lemma sum_n_sub (k : nat) (f g : nat -> real) :
  sum_n k (fun i => (f i - g i)%real) = (sum_n k f - sum_n k g)%real.
Proof. induction k as [|k IH]; cbn [sum_n]; [|rewrite IH]; ring. Qed.

Lemma split_three (n m : nat) (x : Vector) :
  length x = n + m + 1 ->
  exists (xu xv : Vector) (z : real),
    x = xu ++ xv ++ [z] /\ length xu = n /\ length xv = m.
Proof.
  intros H.
  exists (firstn n x), (firstn m (skipn n x)), (nth (n + m) x r0).
  assert (Hs : length (skipn n x) = m + 1) by (rewrite length_skipn; lia).
  assert (Hss : length (skipn m (skipn n x)) = 1)
    by (rewrite length_skipn; lia).
  split; [| split; rewrite length_firstn; lia].
  rewrite <- (firstn_skipn n x) at 1. f_equal.
  rewrite <- (firstn_skipn m (skipn n x)) at 1. f_equal.
  rewrite <- (firstn_skipn n x) at 2.
  rewrite <- (firstn_skipn m (skipn n x)) at 2.
  destruct (skipn m (skipn n x)) as [| z [| z' r]]; try discriminate.
  rewrite app_assoc.
  replace (n + m) with (length (firstn n x ++ firstn m (skipn n x)) + 0)
    by (rewrite length_app, !length_firstn; lia).
  now rewrite app_nth2_plus.
Qed.

(** The matrix of the three blocks, applied to a vector cut in three. *)
Lemma three_blocks_apply (n m : nat) (B : Matrix) (g : real)
  (xu xv : Vector) (z : real) :
  length xu = n -> length xv = m ->
  vec_tabulate (n + m + 1) (fun i =>
    sum_n (n + m + 1) (fun j =>
      (three_blocks n m B g i j * nth j (xu ++ xv ++ [z]) r0)%real)) =
  xu ++ vec_tabulate m (fun i =>
          sum_n m (fun k => (coeff B i k * nth k xv r0)%real))
     ++ [(g * z)%real].
Proof.
  intros Hu Hv.
  assert (Hx1 : forall j, j < n -> nth j (xu ++ xv ++ [z]) r0 = nth j xu r0)
    by (intros j Hj; apply app_nth1; lia).
  assert (Hx2 : forall k, nth (n + k) (xu ++ xv ++ [z]) r0 =
                          nth k (xv ++ [z]) r0)
    by (intros k; rewrite <- Hu; apply app_nth2_plus).
  assert (Hx3 : nth (n + m) (xu ++ xv ++ [z]) r0 = z).
  { rewrite Hx2. replace m with (length xv + 0) by lia.
    now rewrite app_nth2_plus. }
  rewrite <- Nat.add_assoc at 1. rewrite !vec_tabulate_app.
  f_equal; [| f_equal].
  - (* the rows of the identity block *)
    etransitivity; [| apply (vec_tabulate_nth xu r0)]. rewrite Hu.
    apply vec_tabulate_ext. intros i Hi.
    rewrite <- Hx1 by assumption.
    rewrite <- (sum_n_delta_l (n + m + 1) i
                  (fun j => nth j (xu ++ xv ++ [z]) r0)) by lia.
    apply sum_n_ext. intros j Hj. f_equal. unfold three_blocks, delta.
    nat_cases.
  - (* the rows of the cone block *)
    apply vec_tabulate_ext. intros i Hi.
    rewrite !sum_n_app. cbn [sum_n].
    rewrite sum_n_all_zero.
    2:{ intros j Hj. unfold three_blocks. nat_cases; ring. }
    rewrite (sum_n_ext m _ (fun k => (coeff B i k * nth k xv r0)%real)).
    2:{ intros k Hk. rewrite Hx2, app_nth1 by lia. f_equal.
        unfold three_blocks. nat_cases.
        f_equal; lia. }
    unfold three_blocks. nat_cases. ring.
  - (* the row of the scalar block *)
    cbn [vec_tabulate seq map]. f_equal.
    rewrite !sum_n_app. cbn [sum_n].
    rewrite sum_n_all_zero.
    2:{ intros j Hj. unfold three_blocks. nat_cases; ring. }
    rewrite sum_n_all_zero.
    2:{ intros k Hk. unfold three_blocks. nat_cases; ring. }
    rewrite !Nat.add_0_r, Hx3. unfold three_blocks. nat_cases. ring.
Qed.

(** Applied to a vector, [dpi] computes the product with the matrix of the
    three blocks. *)
Lemma dpi_matches_blocks (u v : Vector) (w : real) (cones : list Cone)
  (x : Vector) :
  dense_block_fits v cones -> operator_block_fits v cones ->
  length x = length u + length v + 1 ->
  matvec (dpi u v w cones) x =
  Some (vec_tabulate (length u + length v + 1) (fun i =>
          sum_n (length u + length v + 1) (fun j =>
            (three_blocks (length u) (length v)
               (dprojection_dense v cones true) (gt w r0) i j
             * nth j x r0)%real))).
Proof.
  intros [Hr Hc] (Hor & Hoc & Hagree) Hx.
  destruct (split_three (length u) (length v) x Hx)
    as (xu & xv & z & -> & Hu & Hv).
  rewrite three_blocks_apply by assumption.
  apply dpi_apply.
  - exact Hu.
  - now rewrite Hoc.
  - rewrite Hagree by exact Hv. rewrite mat_vec_ok by congruence.
    now rewrite Hr, Hc.
  - now rewrite length_vec_tabulate, Hor.
Qed.

(** The matrix [(Q - I) D + I] applied to [x] is [Q t - t + x] for
    [t = D x]. *)
Lemma M_formula_apply (Q D : Matrix) (N : nat) (x : Vector) :
  length x = N ->
  mat_vec (M_formula Q D N) x =
  Some (vec_tabulate N (fun i =>
    (sum_n N (fun k =>
       coeff Q i k * sum_n N (fun j => coeff D k j * nth j x r0))
     - sum_n N (fun j => coeff D i j * nth j x r0)
     + nth i x r0)%real)).
Proof.
  intros Hx. rewrite mat_vec_ok by (cbn [M_formula cols tabulate]; congruence).
  cbn [M_formula rows cols tabulate]. f_equal.
  apply vec_tabulate_ext. intros i Hi.
  rewrite (sum_n_ext N _ (fun j =>
    (sum_n N (fun k =>
       (coeff Q i k - delta i k) * (coeff D k j * nth j x r0))
     + delta i j * nth j x r0)%real)).
  2:{ intros j Hj. unfold M_formula. rewrite coeff_tabulate by assumption.
      rewrite (sum_n_ext N
        (fun k => ((coeff Q i k - delta i k)
                   * (coeff D k j * nth j x r0))%real)
        (fun k => ((coeff Q i k - delta i k) * coeff D k j
                   * nth j x r0)%real))
        by (intros k Hk; ring).
      rewrite sum_n_scale_r. ring. }
  rewrite sum_n_add, sum_n_delta_l by assumption. f_equal.
  rewrite sum_n_swap.
  rewrite (sum_n_ext N _ (fun k =>
    (coeff Q i k * sum_n N (fun j => coeff D k j * nth j x r0)
     - delta i k * sum_n N (fun j => coeff D k j * nth j x r0))%real)).
  2:{ intros k Hk. rewrite sum_n_scale_l. ring. }
  now rewrite sum_n_sub, sum_n_delta_l by assumption.
Qed.

Lemma vec_sub_ok (x y : Vector) :
  length x = length y ->
  vec_sub x y =
  Some (vec_tabulate (length x) (fun i => (nth i x r0 - nth i y r0)%real)).
Proof.
  intros H. unfold vec_sub.
  rewrite guard_true; [reflexivity | now apply Nat.eqb_eq].
Qed.

Lemma vec_add_ok (x y : Vector) :
  length x = length y ->
  vec_add x y =
  Some (vec_tabulate (length x) (fun i => (nth i x r0 + nth i y r0)%real)).
Proof.
  intros H. unfold vec_add.
  rewrite guard_true; [reflexivity | now apply Nat.eqb_eq].
Qed.

(** [M_operator] applied to [x] is [Q t - t + x] for [t = dpi x]. *)
Lemma M_operator_apply (Q : SparseMatrix) (cones : list Cone)
  (u v : Vector) (w : real) (x : Vector) (T : nat -> real) :
  let N := length u + length v + 1 in
  cols Q = N -> rows Q = N -> length x = N ->
  matvec (dpi u v w cones) x = Some (vec_tabulate N T) ->
  matvec (M_operator Q cones u v w) x =
  Some (vec_tabulate N (fun i =>
    (sum_n N (fun k => coeff Q i k * T k) - T i + nth i x r0)%real)).
Proof.
  intros N Hc Hr Hx Ht. unfold M_operator. fold N.
  cbn [matvec op_add op_mul op_sub aslinearoperator].
  rewrite Ht. cbn [bind]. fold (identity N).
  rewrite mat_vec_ok by now rewrite length_vec_tabulate.
  rewrite !identity_apply by (assumption || apply length_vec_tabulate).
  cbn [bind]. rewrite vec_sub_ok by now rewrite !length_vec_tabulate.
  cbn [bind]. rewrite vec_add_ok by (rewrite !length_vec_tabulate; congruence).
  rewrite !length_vec_tabulate, Hr, Hc. f_equal.
  apply vec_tabulate_ext. intros i Hi.
  rewrite !nth_vec_tabulate by assumption. do 2 f_equal.
  apply sum_n_ext. intros k Hk. now rewrite nth_vec_tabulate.
Qed.

End Equivalence.

(** ** The properties of the spec *)

Section SpecProperties.
Context {Sc : Scalar} {CP : ConeProjection Sc} {QR : DenseQR Sc}.

(** C1: [M_operator] computes [N = |u| + |v| + 1] and returns the composed
    operator [(wrap(Q) - identity(N)) . dpi(u, v, w, cones) + identity(N)];
    [M_dense] computes the same formula with dense arithmetic,
    [(Q - I_N) . dpi_dense(u, v, w, cones) + I_N], for inputs of matching
    dimensions. *)
Theorem M_is_the_residual_formula (Q : Matrix) (cones : list Cone)
  (u v : Vector) (w : real) :
  let N := length u + length v + 1 in
  rows Q = N -> cols Q = N -> dense_block_fits v cones ->
  M_operator Q cones u v w =
    op_add (op_mul (op_sub (aslinearoperator Q) (identity N))
                   (dpi u v w cones))
           (identity N)
  /\ exists D, dpi_dense u v w cones = Some D /\
               M_dense Q cones u v w = Some (M_formula Q D N).
Proof.
  intros N Hr Hc Hfit. split; [reflexivity |].
  eexists. split; [now apply dpi_dense_blocks |].
  apply M_dense_closed; try assumption. now apply dpi_dense_blocks.
Qed.

(** C2: for inputs of matching dimensions and every vector [x] of size
    [N = |u| + |v| + 1], applying the operator [M_operator(Q, cones, u, v, w)]
    to [x] yields the same vector as multiplying the dense matrix
    [M_dense(Q, cones, u, v, w)] by [x]. *)
Theorem operator_and_dense_agree {RL : RingLaws Sc} (Q : Matrix)
  (cones : list Cone) (u v : Vector) (w : real) (x : Vector) :
  let N := length u + length v + 1 in
  rows Q = N -> cols Q = N ->
  dense_block_fits v cones -> operator_block_fits v cones ->
  length x = N ->
  exists y M,
    matvec (M_operator Q cones u v w) x = Some y /\
    M_dense Q cones u v w = Some M /\
    mat_vec M x = Some y.
Proof.
  intros N Hr Hc Hd Ho Hx.
  pose proof (dpi_dense_blocks u v w cones Hd) as HD.
  pose proof (dpi_matches_blocks u v w cones x Hd Ho Hx) as Ht.
  fold N in HD, Ht.
  set (D := tabulate N N _) in HD.
  eexists. exists (M_formula Q D N). split; [| split].
  - apply (M_operator_apply Q cones u v w x _ Hc Hr Hx Ht).
  - now apply M_dense_closed.
  - rewrite (M_formula_apply Q D N x Hx). f_equal.
    apply vec_tabulate_ext. intros i Hi. unfold D.
    rewrite (sum_n_ext N
      (fun j => (coeff (tabulate N N
           (three_blocks (length u) (length v)
              (dprojection_dense v cones true) (gt w r0))) i j
         * nth j x r0)%real)
      (fun j => (three_blocks (length u) (length v)
           (dprojection_dense v cones true) (gt w r0) i j
         * nth j x r0)%real))
      by (intros j Hj; now rewrite coeff_tabulate).
    do 2 f_equal. apply sum_n_ext. intros k Hk. f_equal.
    apply sum_n_ext. intros j Hj. now rewrite coeff_tabulate.
Qed.

(** C4: for every valid input, with [n = |u|], [m = |v|], [N = n + m + 1],
    the matrix returned by [dpi_dense] is block-diagonal: its top-left
    [n] x [n] block is the identity, its middle [m] x [m] block is
    [dprojection_dense(v, cones, true)], its bottom-right entry is
    [gt(w, 0.0)], and every entry outside these three blocks is zero. *)
Theorem dpi_dense_block_diagonal (u v : Vector) (w : real)
  (cones : list Cone) :
  let n := length u in
  let m := length v in
  let N := n + m + 1 in
  dense_block_fits v cones ->
  exists D, dpi_dense u v w cones = Some D /\
    rows D = N /\ cols D = N /\
    (forall i j, i < n -> j < n -> coeff D i j = delta i j) /\
    (forall i j, i < m -> j < m ->
       coeff D (n + i) (n + j) = coeff (dprojection_dense v cones true) i j) /\
    coeff D (N - 1) (N - 1) = gt w r0 /\
    (forall i j, i < N -> j < N ->
       block_index n m i <> block_index n m j -> coeff D i j = r0).
Proof.
  intros n m N Hfit. eexists. split; [now apply dpi_dense_blocks |].
  fold n m N. cbn [rows cols tabulate].
  split; [reflexivity |]. split; [reflexivity |].
  split; [| split; [| split]].
  - intros i j Hi Hj. rewrite coeff_tabulate by lia.
    unfold three_blocks. nat_cases.
  - intros i j Hi Hj. rewrite coeff_tabulate by lia.
    unfold three_blocks. nat_cases. f_equal; lia.
  - rewrite coeff_tabulate by lia. unfold three_blocks. nat_cases.
  - intros i j Hi Hj. rewrite coeff_tabulate by lia.
    unfold three_blocks, block_index. nat_cases; intros Hb; congruence.
Qed.

(** C5: [dpi(u, v, w, cones)] is the block-diagonal composition of three
    sub-operators, in this order: the identity on vectors of size [|u|], the
    collaborator's [dprojection(v, cones, dual)] called with [dual = true],
    and the 1 x 1 operator [scalar(gt(w, 0.0))]; applied to a vector cut in
    three, it applies each sub-operator to its segment. *)
Theorem dpi_three_blocks_in_order (u v : Vector) (w : real)
  (cones : list Cone) (xu xv y : Vector) (z : real) :
  length xu = length u ->
  length xv = op_cols (dprojection v cones true) ->
  matvec (dprojection v cones true) xv = Some y ->
  length y = op_rows (dprojection v cones true) ->
  dpi u v w cones =
    block_diag [identity (length u); dprojection v cones true;
                scalar (gt w r0)]
  /\ op_rows (dpi u v w cones) =
       length u + op_rows (dprojection v cones true) + 1
  /\ op_cols (dpi u v w cones) =
       length u + op_cols (dprojection v cones true) + 1
  /\ matvec (dpi u v w cones) (xu ++ xv ++ [z]) =
       Some (xu ++ y ++ [(gt w r0 * z)%real]).
Proof.
  intros Hu Hv Hy Hly. split; [reflexivity |].
  unfold dpi, block_diag.
  cbn [op_rows op_cols map list_sum fold_right identity scalar].
  repeat split; try lia. now apply dpi_apply.
Qed.

(** C6: [gt(x, t)] returns 1.0 when [x >= t] and 0.0 when [x < t]; at the
    boundary [x = t], and so at [w = 0] for the call [gt(w, 0.0)], it
    returns 1.0: the comparison is the non-strict [>=]. *)
Theorem gt_is_the_nonstrict_step {OL : OrderLaws Sc} (x t : real) :
  (rle t x -> gt x t = r1) /\
  (rlt x t -> gt x t = r0) /\
  gt t t = r1 /\
  gt r0 r0 = r1.
Proof.
  assert (Hge : forall a b : real, rle b a -> gt a b = r1).
  { intros a b H. unfold gt. now rewrite (proj2 (rgeb_spec a b) H). }
  split; [apply Hge |]. split; [| split; apply Hge, rle_refl].
  intros [Hle Hne]. unfold gt.
  destruct (rgeb x t) eqn:E; [| reflexivity].
  apply rgeb_spec in E. exfalso. apply Hne. now apply rle_antisym.
Qed.

(** The identity matrix maps every vector of its size to itself. *)
Lemma mat_vec_setIdentity {RL : RingLaws Sc} (N : nat) (x : Vector) :
  length x = N -> mat_vec (setIdentity N) x = Some x.
Proof.
  intros Hx. rewrite mat_vec_ok by (cbn [setIdentity cols tabulate]; congruence).
  cbn [setIdentity rows cols tabulate]. f_equal.
  etransitivity; [| apply (vec_tabulate_nth x r0)]. rewrite Hx.
  apply vec_tabulate_ext. intros i Hi.
  rewrite <- (sum_n_delta_l N i (fun k => nth k x r0) Hi).
  apply sum_n_ext. intros k Hk. f_equal.
  apply (coeff_setIdentity N i k Hi Hk).
Qed.

(** C7: if [Q] is the [N] x [N] identity matrix, [M_dense(Q, cones, u, v, w)]
    is the identity for every input of matching dimensions, and
    [_solve_derivative_dense] applied to that [M] and any [rhs] returns
    [rhs]. *)
Theorem identity_data_degeneracy {RL : RingLaws Sc} {QL : DenseQRLaws QR}
  (cones : list Cone) (u v : Vector) (w : real) (rhs : Vector) :
  let N := length u + length v + 1 in
  dense_block_fits v cones -> length rhs = N ->
  M_dense (setIdentity N) cones u v w = Some (setIdentity N) /\
  (forall M, M_dense (setIdentity N) cones u v w = Some M ->
     _solve_derivative_dense M rhs = Some rhs).
Proof.
  intros N Hfit Hrhs.
  assert (HM : M_dense (setIdentity N) cones u v w = Some (setIdentity N)).
  { rewrite (M_dense_closed (setIdentity N) cones u v w _
               eq_refl eq_refl (dpi_dense_blocks u v w cones Hfit)).
    fold N. f_equal. apply tabulate_ext. intros i j Hi Hj.
    apply sum_n_cancel. intros k Hk.
    now rewrite coeff_setIdentity by assumption. }
  split; [exact HM |]. intros M HM'. rewrite HM in HM'. injection HM' as <-.
  unfold _solve_derivative_dense.
  destruct (solve_returns (setIdentity N) rhs) as (x & Hx & Hlen);
    [exact Hrhs |].
  pose proof (solve_residual (setIdentity N) rhs x Hx
                (ex_intro _ rhs (mat_vec_setIdentity N rhs Hrhs))) as Hres.
  rewrite mat_vec_setIdentity in Hres by exact Hlen.
  now rewrite Hx.
Qed.

(** C8: for any input, the matrices returned by [dpi_dense] and [M_dense]
    have size [N] x [N] with [N = |u| + |v| + 1], derived from [u] and [v]
    and not from [Q] (and for a valid input they are returned); [M_dense]
    called with a [Q] of another size fails, and neither truncates nor
    pads. *)
Theorem dense_sizes_and_mismatch (Q : Matrix) (cones : list Cone)
  (u v : Vector) (w : real) :
  let N := length u + length v + 1 in
  (forall D, dpi_dense u v w cones = Some D -> rows D = N /\ cols D = N) /\
  (forall M, M_dense Q cones u v w = Some M -> rows M = N /\ cols M = N) /\
  (dense_block_fits v cones ->
     (exists D, dpi_dense u v w cones = Some D) /\
     (rows Q = N -> cols Q = N -> exists M, M_dense Q cones u v w = Some M)) /\
  (rows Q <> N \/ cols Q <> N -> M_dense Q cones u v w = None).
Proof.
  intros N. split; [| split; [| split]].
  - apply dpi_dense_size.
  - intros M HM. now apply (M_dense_size Q cones u v w M).
  - intros Hfit. split.
    + eexists. now apply dpi_dense_blocks.
    + intros Hr Hc. eexists. apply M_dense_closed; try assumption.
      now apply dpi_dense_blocks.
  - apply M_dense_mismatch.
Qed.

(** C9: [dpi] and [dpi_dense] depend on [u] only through its size: for
    [u], [u'] of the same size, and every [v], [w], [cones], they return the
    same operator and the same matrix. *)
Theorem dpi_reads_only_the_size_of_u (u u' v : Vector) (w : real)
  (cones : list Cone) :
  length u = length u' ->
  dpi u v w cones = dpi u' v w cones /\
  dpi_dense u v w cones = dpi_dense u' v w cones.
Proof.
  intros H. unfold dpi, dpi_dense. now rewrite H.
Qed.

(** C10: [_solve_adjoint_derivative_dense] is extensionally equal to
    [_solve_derivative_dense]: on every matrix and vector both return the
    same result, so the adjoint entry point transposes nothing. *)
Theorem adjoint_solve_is_the_forward_solve (A : Matrix) (b : Vector) :
  _solve_adjoint_derivative_dense A b = _solve_derivative_dense A b.
Proof. reflexivity. Qed.

End SpecProperties.

(** ** Further properties of deriv.cpp *)

Section FurtherProperties.
Context {Sc : Scalar} {CP : ConeProjection Sc}.





(** X5: [M_operator] and [M_dense] read [u] through its size only: two
    vectors [u], [u'] of the same size give the same operator and the same
    matrix, whatever their entries. *)
Theorem M_reads_only_the_size_of_u (Q : Matrix) (cones : list Cone)
  (u u' v : Vector) (w : real) :
  length u = length u' ->
  M_operator Q cones u v w = M_operator Q cones u' v w /\
  M_dense Q cones u v w = M_dense Q cones u' v w.
Proof.
  intros H. unfold M_operator, M_dense, dpi, dpi_dense. now rewrite H.
Qed.

(** The step of a nonnegative scalar, and of a negative one. *)
Lemma gt_nonnegative {OL : OrderLaws Sc} (w : real) :
  rle r0 w -> gt w r0 = r1.
Proof. intros H. unfold gt. now rewrite (proj2 (rgeb_spec w r0) H). Qed.

Lemma gt_negative {OL : OrderLaws Sc} (w : real) :
  rlt w r0 -> gt w r0 = r0.
Proof.
  intros [Hle Hne]. unfold gt. destruct (rgeb w r0) eqn:E; [| reflexivity].
  apply rgeb_spec in E. exfalso. apply Hne. now apply rle_antisym.
Qed.

(** X6: the four builders read [w] through its sign only: any two
    nonnegative values of [w] give the same [dpi], [dpi_dense], [M_operator]
    and [M_dense], and so do any two negative values. *)
Theorem builders_read_only_the_sign_of_w {OL : OrderLaws Sc} (Q : Matrix)
  (cones : list Cone) (u v : Vector) (w w' : real) :
  (rle r0 w /\ rle r0 w') \/ (rlt w r0 /\ rlt w' r0) ->
  dpi u v w cones = dpi u v w' cones /\
  dpi_dense u v w cones = dpi_dense u v w' cones /\
  M_operator Q cones u v w = M_operator Q cones u v w' /\
  M_dense Q cones u v w = M_dense Q cones u v w'.
Proof.
  intros H.
  assert (E : gt w r0 = gt w' r0).
  { destruct H as [[H1 H2] | [H1 H2]].
    - now rewrite (gt_nonnegative w H1), (gt_nonnegative w' H2).
    - now rewrite (gt_negative w H1), (gt_negative w' H2). }
  unfold M_operator, M_dense, dpi, dpi_dense. now rewrite E.
Qed.

Lemma three_blocks_symmetric (n m : nat) (B : Matrix) (g : real)
  (i j : nat) :
  (forall a b, a < m -> b < m -> coeff B a b = coeff B b a) ->
  three_blocks n m B g i j = three_blocks n m B g j i.
Proof.
  intros HB. unfold three_blocks, delta.
  nat_cases; try congruence. apply HB; lia.
Qed.

(** X7: [dpi_dense] returns a symmetric matrix whenever the collaborator's
    dense block is symmetric. *)
Theorem dpi_dense_is_symmetric (u v : Vector) (w : real)
  (cones : list Cone) :
  dense_block_fits v cones ->
  (forall a b, a < length v -> b < length v ->
     coeff (dprojection_dense v cones true) a b =
     coeff (dprojection_dense v cones true) b a) ->
  exists D, dpi_dense u v w cones = Some D /\ transpose D = D.
Proof.
  intros Hfit HB. eexists. split; [now apply dpi_dense_blocks |].
  unfold transpose. cbn [rows cols tabulate]. apply tabulate_ext.
  intros i j Hi Hj. rewrite coeff_tabulate by assumption.
  now apply three_blocks_symmetric.
Qed.

End FurtherProperties.

Section FurtherAlgebra.
Context {Sc : Scalar} {RL : RingLaws Sc} {CP : ConeProjection Sc}.

Add Ring real_ring_further : real_ring.


(** X1: the two forms of the projection derivative agree: for a collaborator
    whose operator form is the map of its dense form, applying the operator
    [dpi(u, v, w, cones)] to a vector [x] of size [N = |u| + |v| + 1] gives
    the product of the matrix [dpi_dense(u, v, w, cones)] with [x]. *)
Theorem dpi_and_dpi_dense_agree (u v : Vector) (w : real)
  (cones : list Cone) (x : Vector) :
  dense_block_fits v cones -> operator_block_fits v cones ->
  length x = length u + length v + 1 ->
  exists y D,
    matvec (dpi u v w cones) x = Some y /\
    dpi_dense u v w cones = Some D /\
    mat_vec D x = Some y.
Proof.
  intros Hd Ho Hx. eexists. eexists.
  split; [now apply dpi_matches_blocks |].
  split; [now apply dpi_dense_blocks |].
  rewrite mat_vec_ok by (cbn [cols tabulate]; congruence).
  cbn [rows cols tabulate]. f_equal. apply vec_tabulate_ext. intros i Hi.
  apply sum_n_ext. intros j Hj. now rewrite coeff_tabulate.
Qed.





(** The product of a matrix with a vector is additive and homogeneous. *)
Lemma mat_vec_additive (A : Matrix) (x y : Vector) :
  cols A = length x -> length x = length y ->
  exists ax ay s,
    mat_vec A x = Some ax /\ mat_vec A y = Some ay /\
    vec_add x y = Some s /\ mat_vec A s = vec_add ax ay.
Proof.
  intros Hx Hxy. do 3 eexists.
  split; [now apply mat_vec_ok |].
  split; [apply mat_vec_ok; congruence |].
  split; [now apply vec_add_ok |].
  rewrite mat_vec_ok by now rewrite length_vec_tabulate.
  rewrite vec_add_ok by now rewrite !length_vec_tabulate.
  rewrite length_vec_tabulate. f_equal. apply vec_tabulate_ext.
  intros i Hi. rewrite !nth_vec_tabulate by assumption.
  rewrite <- sum_n_add. apply sum_n_ext. intros k Hk.
  rewrite nth_vec_tabulate by lia. ring.
Qed.

Lemma mat_vec_homogeneous (A : Matrix) (c : real) (x : Vector) :
  cols A = length x ->
  exists ax,
    mat_vec A x = Some ax /\
    mat_vec A (map (rmul c) x) = Some (map (rmul c) ax).
Proof.
  intros Hx. eexists. split; [now apply mat_vec_ok |].
  rewrite mat_vec_ok by now rewrite length_map.
  f_equal. unfold vec_tabulate. rewrite map_map. apply map_ext_in.
  intros i Hi. rewrite <- sum_n_scale_l. apply sum_n_ext. intros k Hk.
  replace (nth k (map (rmul c) x) r0) with (c * nth k x r0)%real.
  - ring.
  - rewrite (nth_indep (map (rmul c) x) r0 (c * r0)%real)
      by (rewrite length_map; lia).
    now rewrite (map_nth (rmul c)).
Qed.

(** [M_operator] is the map of the matrix [M_dense] returns. *)
Lemma M_operator_is_the_map_of_M_dense (Q : Matrix) (cones : list Cone)
  (u v : Vector) (w : real) :
  let N := length u + length v + 1 in
  rows Q = N -> cols Q = N ->
  dense_block_fits v cones -> operator_block_fits v cones ->
  exists M, M_dense Q cones u v w = Some M /\
    rows M = N /\ cols M = N /\
    forall x, length x = N ->
      matvec (M_operator Q cones u v w) x = mat_vec M x.
Proof.
  intros N Hr Hc Hd Ho.
  pose proof (dpi_dense_blocks u v w cones Hd) as HD. fold N in HD.
  set (D := tabulate N N _) in HD.
  exists (M_formula Q D N).
  split; [now apply M_dense_closed |].
  split; [reflexivity |]. split; [reflexivity |].
  intros x Hx.
  pose proof (dpi_matches_blocks u v w cones x Hd Ho Hx) as Ht. fold N in Ht.
  rewrite (M_operator_apply Q cones u v w x _ Hc Hr Hx Ht).
  rewrite (M_formula_apply Q D N x Hx). f_equal.
  apply vec_tabulate_ext. intros i Hi.
  assert (E : forall k, k < N ->
            sum_n N (fun j => (coeff D k j * nth j x r0)%real) =
            sum_n N (fun j =>
              (three_blocks (length u) (length v)
                 (dprojection_dense v cones true) (gt w r0) k j
               * nth j x r0)%real)).
  { intros k Hk. apply sum_n_ext. intros j Hj. unfold D.
    now rewrite coeff_tabulate. }
  rewrite (E i Hi). do 2 f_equal. apply sum_n_ext. intros k Hk.
  now rewrite (E k Hk).
Qed.

(** X8: [M_operator] is linear: for a collaborator whose operator form is
    the map of its dense form, and vectors [x], [y] of size [N], it sends
    [x + y] to the sum of the images and [c x] to [c] times the image. *)
Theorem M_operator_is_linear (Q : Matrix) (cones : list Cone)
  (u v : Vector) (w : real) (x y : Vector) (c : real) :
  let N := length u + length v + 1 in
  rows Q = N -> cols Q = N ->
  dense_block_fits v cones -> operator_block_fits v cones ->
  length x = N -> length y = N ->
  exists mx my s,
    matvec (M_operator Q cones u v w) x = Some mx /\
    matvec (M_operator Q cones u v w) y = Some my /\
    vec_add x y = Some s /\
    matvec (M_operator Q cones u v w) s = vec_add mx my /\
    matvec (M_operator Q cones u v w) (map (rmul c) x) =
      Some (map (rmul c) mx).
Proof.
  intros N Hr Hc Hd Ho Hx Hy.
  destruct (M_operator_is_the_map_of_M_dense Q cones u v w Hr Hc Hd Ho)
    as (M & _ & _ & HMc & Hmap). fold N in HMc, Hmap.
  destruct (mat_vec_additive M x y) as (ax & ay & s & Hax & Hay & Hs & Hsum);
    [congruence | congruence |].
  destruct (mat_vec_homogeneous M c x) as (ax' & Hax' & Hscale);
    [congruence |].
  rewrite Hax in Hax'. injection Hax' as <-.
  assert (Hls : length s = N).
  { unfold vec_add in Hs. destruct (guard _); [| discriminate].
    cbn [bind] in Hs. injection Hs as <-.
    now rewrite length_vec_tabulate. }
  exists ax, ay, s.
  rewrite !Hmap by (assumption || now rewrite length_map).
  repeat split; assumption.
Qed.

End FurtherAlgebra.

(** * The sample instances satisfy the laws *)

Lemma Qc_ring_laws : RingLaws Qc_scalar.
Proof. constructor. exact Qcrt. Qed.

Lemma Qc_order_laws : OrderLaws Qc_scalar.
Proof.
  constructor.
  - exact Qcle_refl.
  - exact Qcle_antisym.
  - intros x t. cbn [rgeb rle Qc_scalar]. apply Qle_bool_iff.
Qed.

Lemma orthant_dense_fits (Sc : Scalar) (v : Vector) (cones : list nat) :
  @dense_block_fits Sc (orthant_projection Sc) v cones.
Proof. split; reflexivity. Qed.

Lemma orthant_operator_fits (Sc : Scalar) (v : Vector) (cones : list nat) :
  @operator_block_fits Sc (orthant_projection Sc) v cones.
Proof. repeat split. Qed.

(** ** The elimination solves every system that has a solution *)

Lemma length_row_sub_scaled (r' : list Qc) (k : Qc) (r : list Qc) :
  length r' = length r -> length (row_sub_scaled r' k r) = length r.
Proof.
  revert r. induction r' as [|a' r' IH]; intros [|a r] H; cbn in *;
    try discriminate; [reflexivity |].
  f_equal. apply IH. now injection H.
Qed.

Lemma dot_row_sub_scaled (r' : list Qc) (k : Qc) (r x : list Qc) :
  length r' = length r ->
  dot (row_sub_scaled r' k r) x = (dot r' x - k * dot r x)%Qc.
Proof.
  revert r x. induction r' as [|a' r' IH]; intros [|a r] x H; cbn in *;
    try discriminate.
  - ring.
  - destruct x as [|b x]; [ring |].
    rewrite IH by now injection H. ring.
Qed.

Lemma length_solve_system (c : nat) (eqs : list equation) :
  length (solve_system c eqs) = c.
Proof.
  revert eqs. induction c as [|c IH]; intros eqs; cbn [solve_system].
  - reflexivity.
  - match goal with |- context [find ?f eqs] => destruct (find f eqs) end;
      cbn [length]; now rewrite IH.
Qed.

Lemma solve_system_complete (c : nat) (eqs : list equation) (x : list Qc) :
  Forall (fun e => length (fst e) = c) eqs ->
  length x = c ->
  Forall (satisfies x) eqs ->
  Forall (satisfies (solve_system c eqs)) eqs.
Proof.
  revert eqs x. induction c as [|c IH]; intros eqs x Hlen Hx Hsat.
  - destruct x; [exact Hsat | discriminate].
  - destruct x as [|x0 x']; [discriminate |].
    injection Hx as Hx. cbn [solve_system].
    rewrite Forall_forall in Hlen, Hsat.
    match goal with |- context [find ?f eqs] =>
      destruct (find f eqs) as [piv |] eqn:Hfind end.
    + (* a pivot *)
      apply find_some in Hfind. destruct Hfind as [Hin Hp].
      pose proof (Hlen piv Hin) as Hlp. pose proof (Hsat piv Hin) as Hsp.
      destruct piv as [[|p r] b]; [discriminate |].
      cbn [fst snd hd tl length] in *. injection Hlp as Hlr.
      assert (Hp0 : p <> Q2Qc 0).
      { intros ->. unfold Qc_eq_bool in Hp.
        now destruct (Qc_eq_dec (Q2Qc 0) (Q2Qc 0)). }
      unfold satisfies in Hsp. cbn [fst snd dot] in Hsp.
      set (eqs' := map (eliminate p (p :: r, b)) eqs).
      assert (Hxs : Forall (satisfies (solve_system c eqs')) eqs').
      { apply (IH eqs' x'); [| exact Hx |]; apply Forall_forall;
          intros e' He'; apply in_map_iff in He';
          destruct He' as (e & <- & He);
          pose proof (Hlen e He) as Hle; pose proof (Hsat e He) as Hse;
          destruct e as [[|a r'] b']; try discriminate;
          cbn [fst snd hd tl length eliminate] in *; injection Hle as Hle.
        - unfold eliminate. cbn [fst snd hd tl].
          rewrite length_row_sub_scaled; congruence.
        - unfold satisfies, eliminate in *. cbn [fst snd hd tl dot] in *.
          rewrite dot_row_sub_scaled by congruence.
          rewrite <- Hse, <- Hsp. field. exact Hp0. }
      rewrite Forall_forall in Hxs. apply Forall_forall. intros e He.
      pose proof (Hxs (eliminate p (p :: r, b) e)
                    (in_map _ _ _ He)) as Hxe.
      pose proof (Hlen e He) as Hle.
      destruct e as [[|a r'] b']; try discriminate.
      cbn [fst snd hd tl length eliminate] in *. injection Hle as Hle.
      unfold satisfies, eliminate in *. cbn [fst snd hd tl dot] in *.
      rewrite dot_row_sub_scaled in Hxe by congruence.
      set (s := dot r (solve_system c eqs')) in *.
      set (s' := dot r' (solve_system c eqs')) in *.
      assert (Hs' : s' = (b' - a / p * b + a / p * s)%Qc)
        by (rewrite <- Hxe; ring).
      rewrite Hs'. field. exact Hp0.
    + (* the first unknown occurs in no equation *)
      set (eqs' := map (fun e : equation => (tl (fst e), snd e)) eqs).
      assert (Hhd : forall e, In e eqs ->
                exists r', fst e = Q2Qc 0 :: r' /\ length r' = c).
      { intros e He. pose proof (find_none _ _ Hfind e He) as Hz.
        pose proof (Hlen e He) as Hle.
        destruct e as [[|a r'] b']; try discriminate.
        cbn [fst hd] in *. exists r'. split; [| now injection Hle].
        apply negb_false_iff, Qc_eq_bool_correct in Hz. now rewrite Hz. }
      assert (Hxs : Forall (satisfies (solve_system c eqs')) eqs').
      { apply (IH eqs' x'); [| exact Hx |]; apply Forall_forall;
          intros e' He'; apply in_map_iff in He';
          destruct He' as (e & <- & He);
          destruct (Hhd e He) as (r' & Hr' & Hlr');
          pose proof (Hsat e He) as Hse;
          unfold satisfies in *; cbn [fst snd]; rewrite Hr' in *;
          cbn [tl dot] in *.
        - exact Hlr'.
        - rewrite <- Hse. ring. }
      rewrite Forall_forall in Hxs. apply Forall_forall. intros e He.
      pose proof (Hxs _ (in_map _ _ _ He)) as Hxe.
      destruct (Hhd e He) as (r' & Hr' & _).
      unfold satisfies in *. cbn [fst snd] in Hxe. rewrite Hr' in Hxe |- *.
      subst eqs'. cbn [tl] in Hxe. cbn [dot].
      assert (Hz : forall d : Qc, (Q2Qc 0 * Q2Qc 0 + d)%Qc = d)
        by (intros d; ring).
      rewrite Hz. exact Hxe.
Qed.

(** A row of coefficients against a vector: [dot] is the sum of the
    products. *)
Lemma dot_tabulated (f : nat -> Qc) (c s : nat) (y : list Qc) :
  length y = c ->
  dot (map f (seq s c)) y =
  @sum_n Qc_scalar c (fun k => (f (s + k)%nat * nth k y (Q2Qc 0))%Qc).
Proof.
  revert s y. induction c as [|c IH]; intros s [|b y] H; try discriminate.
  - reflexivity.
  - cbn [seq map dot]. rewrite IH by now injection H.
    rewrite (@sum_n_app Qc_scalar Qc_ring_laws 1 c).
    cbn [sum_n nth Nat.add]. rewrite Nat.add_0_r.
    rewrite (@sum_n_ext Qc_scalar c
               (fun k => (f (S (s + k)) * nth k y (Q2Qc 0))%Qc)
               (fun k => (f (s + S k)%nat * nth k y (Q2Qc 0))%Qc))
      by (intros k _; now rewrite Nat.add_succ_r).
    cbn [radd r0 Qc_scalar]. ring.
Qed.

Lemma combine_map_same {A B C : Type} (F : A -> B) (G : A -> C)
  (l : list A) :
  combine (map F l) (map G l) = map (fun i => (F i, G i)) l.
Proof. induction l as [|a l IH]; cbn; [reflexivity | now rewrite IH]. Qed.

(** The elimination meets the contract of the dense solve. *)
Lemma exact_solve_laws : DenseQRLaws exact_solve.
Proof.
  constructor.
  - intros M rhs H. cbn [colPivHouseholderQr_solve exact_solve].
    rewrite guard_true by now apply Nat.eqb_eq.
    cbn [bind]. eexists. split; [reflexivity | apply length_solve_system].
  - intros M rhs x Hx [y Hy].
    cbn [colPivHouseholderQr_solve exact_solve] in Hx.
    destruct (guard (length rhs =? rows M)); [| discriminate].
    cbn [bind] in Hx. injection Hx as <-.
    unfold mat_vec in Hy.
    destruct (guard (cols M =? length y)) eqn:Hg; [| discriminate].
    apply guard_Some, Nat.eqb_eq in Hg. cbn [bind] in Hy.
    injection Hy as <-.
    set (G := fun z i => @sum_n Qc_scalar (cols M)
                (fun k => (coeff M i k * nth k z (Q2Qc 0))%Qc)).
    assert (Heqs : equations_of M (vec_tabulate (rows M) (G y)) =
                   map (fun i => (map (coeff M i) (seq 0 (cols M)), G y i))
                       (seq 0 (rows M)))
      by apply combine_map_same.
    fold (G y). rewrite Heqs.
    set (eqs := map _ (seq 0 (rows M))).
    assert (Hsol : Forall (satisfies (solve_system (cols M) eqs)) eqs).
    { apply (solve_system_complete (cols M) eqs y).
      - apply Forall_forall. intros e He. apply in_map_iff in He.
        destruct He as (i & <- & _). cbn [fst].
        now rewrite length_map, length_seq.
      - now symmetry.
      - apply Forall_forall. intros e He. apply in_map_iff in He.
        destruct He as (i & <- & _). unfold satisfies. cbn [fst snd].
        now rewrite dot_tabulated by (now symmetry). }
    rewrite mat_vec_ok by (now rewrite length_solve_system).
    f_equal. apply vec_tabulate_ext. intros i Hi.
    rewrite Forall_forall in Hsol.
    assert (Hin : In (map (coeff M i) (seq 0 (cols M)), G y i) eqs).
    { apply in_map_iff. exists i. split; [reflexivity |].
      apply in_seq. lia. }
    pose proof (Hsol _ Hin) as He. unfold satisfies in He.
    cbn [fst snd] in He.
    rewrite dot_tabulated in He by apply length_solve_system.
    exact He.
Qed.

(** * The properties on concrete inputs *)

#[local] Existing Instance Qc_scalar.
#[local] Existing Instance orthant_projection.

(** C1 on a 3 x 3 [Q], with [u = (2)], [v = (-1)], [w = 3]. *)
Lemma M_is_the_residual_formula_sample :
  let u := rationals [2%Z] in
  let v := rationals [(-1)%Z] in
  let w := rational 3 in
  M_operator sample_Q [] u v w =
    op_add (op_mul (op_sub (aslinearoperator sample_Q) (identity 3))
                   (dpi u v w []))
           (identity 3)
  /\ exists D, dpi_dense u v w [] = Some D /\
               M_dense sample_Q [] u v w = Some (M_formula sample_Q D 3).
Proof.
  exact (@M_is_the_residual_formula Qc_scalar (orthant_projection Qc_scalar)
           sample_Q [] (rationals [2%Z]) (rationals [(-1)%Z]) (rational 3)
           eq_refl eq_refl
           (orthant_dense_fits Qc_scalar (rationals [(-1)%Z]) [])).
Defined.

(** C2 on the same input and [x = (1, 2, 3)]: both forms give
    [(6, 20, 30)]. *)
Lemma operator_and_dense_agree_sample :
  let u := rationals [2%Z] in
  let v := rationals [(-1)%Z] in
  let w := rational 3 in
  let x := rationals [1%Z; 2%Z; 3%Z] in
  matvec (M_operator sample_Q [] u v w) x =
    Some (rationals [6%Z; 20%Z; 30%Z]) /\
  exists M,
    M_dense sample_Q [] u v w = Some M /\
    mat_vec M x = Some (rationals [6%Z; 20%Z; 30%Z]).
Proof.
  destruct (@operator_and_dense_agree Qc_scalar
              (orthant_projection Qc_scalar) Qc_ring_laws
              sample_Q [] (rationals [2%Z]) (rationals [(-1)%Z]) (rational 3)
              (rationals [1%Z; 2%Z; 3%Z])
              eq_refl eq_refl
              (orthant_dense_fits Qc_scalar (rationals [(-1)%Z]) [])
              (orthant_operator_fits Qc_scalar (rationals [(-1)%Z]) [])
              eq_refl) as (y & M & Hop & HM & Hdense).
  assert (E : matvec (M_operator sample_Q [] (rationals [2%Z])
                        (rationals [(-1)%Z]) (rational 3))
                     (rationals [1%Z; 2%Z; 3%Z]) =
              Some (rationals [6%Z; 20%Z; 30%Z]))
    by (vm_compute; reflexivity).
  rewrite E in Hop. injection Hop as <-.
  split; [exact E |]. exists M. split; assumption.
Defined.

(** C4 for [n = 2], [m = 3]. *)
Lemma dpi_dense_block_diagonal_sample :
  let u := rationals [2%Z; 7%Z] in
  let v := rationals [1%Z; (-1)%Z; 0%Z] in
  let w := rational (-3) in
  exists D, dpi_dense u v w [] = Some D /\
    rows D = 6 /\ cols D = 6 /\
    (forall i j, i < 2 -> j < 2 -> coeff D i j = delta i j) /\
    (forall i j, i < 3 -> j < 3 ->
       coeff D (2 + i) (2 + j) = coeff (dprojection_dense v [] true) i j) /\
    coeff D 5 5 = gt w r0 /\
    (forall i j, i < 6 -> j < 6 ->
       block_index 2 3 i <> block_index 2 3 j -> coeff D i j = r0).
Proof.
  exact (@dpi_dense_block_diagonal Qc_scalar (orthant_projection Qc_scalar)
           (rationals [2%Z; 7%Z]) (rationals [1%Z; (-1)%Z; 0%Z])
           (rational (-3)) []
           (orthant_dense_fits Qc_scalar
              (rationals [1%Z; (-1)%Z; 0%Z]) [])).
Defined.

(** C5 for [u = (2)], [v = (1, -1)], [w = 3]: the vector [(4, 5, 6, 7)] is
    cut into [(4)], [(5, 6)] and [(7)]. *)
Lemma dpi_three_blocks_in_order_sample :
  let u := rationals [2%Z] in
  let v := rationals [1%Z; (-1)%Z] in
  let w := rational 3 in
  dpi u v w [] =
    block_diag [identity 1; dprojection v [] true; scalar (gt w r0)]
  /\ op_rows (dpi u v w []) = 4
  /\ op_cols (dpi u v w []) = 4
  /\ matvec (dpi u v w []) (rationals [4%Z; 5%Z; 6%Z; 7%Z]) =
       Some (rationals [4%Z; 5%Z; 0%Z; 7%Z]).
Proof.
  exact (@dpi_three_blocks_in_order Qc_scalar (orthant_projection Qc_scalar)
           (rationals [2%Z]) (rationals [1%Z; (-1)%Z]) (rational 3) []
           (rationals [4%Z]) (rationals [5%Z; 6%Z])
           (rationals [5%Z; 0%Z]) (rational 7)
           eq_refl eq_refl eq_refl eq_refl).
Defined.

(** C6 at [3 >= 0], at [-1 < 0] and at the boundary [0 = 0]. *)
Lemma gt_is_the_nonstrict_step_sample :
  gt (rational 3) (rational 0) = r1 /\
  gt (rational (-1)) (rational 0) = r0 /\
  gt (rational 0) (rational 0) = r1.
Proof.
  split; [| split].
  - apply (proj1 (@gt_is_the_nonstrict_step Qc_scalar Qc_order_laws
                    (rational 3) (rational 0))).
    vm_compute. discriminate.
  - apply (proj1 (proj2 (@gt_is_the_nonstrict_step Qc_scalar Qc_order_laws
                           (rational (-1)) (rational 0)))).
    split; [vm_compute; discriminate | intros H; discriminate H].
  - apply (proj1 (proj2 (proj2
             (@gt_is_the_nonstrict_step Qc_scalar Qc_order_laws
                (rational 0) (rational 0))))).
Defined.

(** C7 on the scenario of the spec: [n = 1], [m = 0], [u = (2)], [w = 3],
    [Q] the 2 x 2 identity and [rhs = (5, -1)]. *)
Lemma identity_data_degeneracy_sample :
  let u := rationals [2%Z] in
  let w := rational 3 in
  let rhs := rationals [5%Z; (-1)%Z] in
  M_dense (setIdentity 2) [] u [] w = Some (setIdentity 2) /\
  @_solve_derivative_dense Qc_scalar exact_solve (setIdentity 2) rhs =
    Some rhs.
Proof.
  destruct (@identity_data_degeneracy Qc_scalar
              (orthant_projection Qc_scalar) exact_solve
              Qc_ring_laws exact_solve_laws
              [] (rationals [2%Z]) [] (rational 3)
              (rationals [5%Z; (-1)%Z])
              (orthant_dense_fits Qc_scalar [] []) eq_refl) as [HM Hsolve].
  split; [exact HM | exact (Hsolve _ HM)].
Defined.

(** C8 for [N = 4] and a 3 x 3 [Q]: [dpi_dense] returns a 4 x 4 matrix and
    [M_dense] fails. *)
Lemma dense_sizes_and_mismatch_sample :
  let u := rationals [2%Z] in
  let v := rationals [1%Z; 4%Z] in
  let w := rational 3 in
  (exists D, dpi_dense u v w [] = Some D /\ rows D = 4 /\ cols D = 4) /\
  M_dense sample_Q [] u v w = None.
Proof.
  destruct (@dense_sizes_and_mismatch Qc_scalar
              (orthant_projection Qc_scalar)
              sample_Q [] (rationals [2%Z]) (rationals [1%Z; 4%Z])
              (rational 3)) as (Hdpi & _ & Hvalid & Hmismatch).
  split.
  - destruct (Hvalid (orthant_dense_fits Qc_scalar
                        (rationals [1%Z; 4%Z]) [])) as [[D HD] _].
    exists D. split; [exact HD | exact (Hdpi D HD)].
  - apply Hmismatch. left. discriminate.
Defined.

(** C9 for [u = (2)] and [u' = (7)]. *)
Lemma dpi_reads_only_the_size_of_u_sample :
  let v := rationals [1%Z; (-1)%Z] in
  let w := rational 3 in
  dpi (rationals [2%Z]) v w [] = dpi (rationals [7%Z]) v w [] /\
  dpi_dense (rationals [2%Z]) v w [] = dpi_dense (rationals [7%Z]) v w [].
Proof.
  exact (@dpi_reads_only_the_size_of_u Qc_scalar
           (orthant_projection Qc_scalar)
           (rationals [2%Z]) (rationals [7%Z]) (rationals [1%Z; (-1)%Z])
           (rational 3) [] eq_refl).
Defined.

(** ** The further properties on concrete inputs *)

Lemma orthant_dense_symmetric (Sc : Scalar) (v : Vector) (a b : nat) :
  a < length v -> b < length v ->
  coeff (@orthant_dense Sc v) a b = coeff (@orthant_dense Sc v) b a.
Proof.
  intros Ha Hb. unfold orthant_dense. rewrite !coeff_tabulate by assumption.
  rewrite (Nat.eqb_sym b a). destruct (Nat.eqb_spec a b) as [-> |];
    reflexivity.
Qed.

(** X1 for [u = (2)], [v = (1, -1)], [w = 3] and [x = (4, 5, 6, 7)]: both
    forms give [(4, 5, 0, 7)]. *)
Lemma dpi_and_dpi_dense_agree_sample :
  let u := rationals [2%Z] in
  let v := rationals [1%Z; (-1)%Z] in
  let w := rational 3 in
  let x := rationals [4%Z; 5%Z; 6%Z; 7%Z] in
  matvec (dpi u v w []) x = Some (rationals [4%Z; 5%Z; 0%Z; 7%Z]) /\
  exists D, dpi_dense u v w [] = Some D /\
            mat_vec D x = Some (rationals [4%Z; 5%Z; 0%Z; 7%Z]).
Proof.
  destruct (@dpi_and_dpi_dense_agree Qc_scalar Qc_ring_laws
              (orthant_projection Qc_scalar)
              (rationals [2%Z]) (rationals [1%Z; (-1)%Z]) (rational 3) []
              (rationals [4%Z; 5%Z; 6%Z; 7%Z])
              (orthant_dense_fits Qc_scalar (rationals [1%Z; (-1)%Z]) [])
              (orthant_operator_fits Qc_scalar (rationals [1%Z; (-1)%Z]) [])
              eq_refl) as (y & D & Hop & HD & Hdense).
  assert (E : matvec (dpi (rationals [2%Z]) (rationals [1%Z; (-1)%Z])
                        (rational 3) [])
                     (rationals [4%Z; 5%Z; 6%Z; 7%Z]) =
              Some (rationals [4%Z; 5%Z; 0%Z; 7%Z]))
    by (vm_compute; reflexivity).
  rewrite E in Hop. injection Hop as <-.
  split; [exact E |]. exists D. split; assumption.
Defined.


(** X5 for [u = (2)] and [u' = (7)]. *)
Lemma M_reads_only_the_size_of_u_sample :
  let v := rationals [(-1)%Z] in
  let w := rational 3 in
  M_operator sample_Q [] (rationals [2%Z]) v w =
    M_operator sample_Q [] (rationals [7%Z]) v w /\
  M_dense sample_Q [] (rationals [2%Z]) v w =
    M_dense sample_Q [] (rationals [7%Z]) v w.
Proof.
  exact (@M_reads_only_the_size_of_u Qc_scalar
           (orthant_projection Qc_scalar) sample_Q []
           (rationals [2%Z]) (rationals [7%Z]) (rationals [(-1)%Z])
           (rational 3) eq_refl).
Defined.

(** X6 for [w = 3] and [w' = 7], both nonnegative. *)
Lemma builders_read_only_the_sign_of_w_sample :
  let u := rationals [2%Z] in
  let v := rationals [(-1)%Z] in
  dpi u v (rational 3) [] = dpi u v (rational 7) [] /\
  dpi_dense u v (rational 3) [] = dpi_dense u v (rational 7) [] /\
  M_operator sample_Q [] u v (rational 3) =
    M_operator sample_Q [] u v (rational 7) /\
  M_dense sample_Q [] u v (rational 3) =
    M_dense sample_Q [] u v (rational 7).
Proof.
  apply (@builders_read_only_the_sign_of_w Qc_scalar
           (orthant_projection Qc_scalar) Qc_order_laws sample_Q []
           (rationals [2%Z]) (rationals [(-1)%Z]) (rational 3) (rational 7)).
  left. split; vm_compute; discriminate.
Defined.

(** X7 for [u = (2, 7)], [v = (1, -1, 0)], [w = -3]. *)
Lemma dpi_dense_is_symmetric_sample :
  let u := rationals [2%Z; 7%Z] in
  let v := rationals [1%Z; (-1)%Z; 0%Z] in
  exists D, dpi_dense u v (rational (-3)) [] = Some D /\ transpose D = D.
Proof.
  exact (@dpi_dense_is_symmetric Qc_scalar (orthant_projection Qc_scalar)
           (rationals [2%Z; 7%Z]) (rationals [1%Z; (-1)%Z; 0%Z])
           (rational (-3)) []
           (orthant_dense_fits Qc_scalar (rationals [1%Z; (-1)%Z; 0%Z]) [])
           (orthant_dense_symmetric Qc_scalar
              (rationals [1%Z; (-1)%Z; 0%Z]))).
Defined.

(** X8 on the 3 x 3 [Q], for [x = (1, 2, 3)], [y = (1, 0, -1)] and
    [c = 2]. *)
Lemma M_operator_is_linear_sample :
  let u := rationals [2%Z] in
  let v := rationals [(-1)%Z] in
  let w := rational 3 in
  let x := rationals [1%Z; 2%Z; 3%Z] in
  let y := rationals [1%Z; 0%Z; (-1)%Z] in
  exists mx my s,
    matvec (M_operator sample_Q [] u v w) x = Some mx /\
    matvec (M_operator sample_Q [] u v w) y = Some my /\
    vec_add x y = Some s /\
    matvec (M_operator sample_Q [] u v w) s = vec_add mx my /\
    matvec (M_operator sample_Q [] u v w) (map (rmul (rational 2)) x) =
      Some (map (rmul (rational 2)) mx).
Proof.
  exact (@M_operator_is_linear Qc_scalar Qc_ring_laws
           (orthant_projection Qc_scalar)
           sample_Q [] (rationals [2%Z]) (rationals [(-1)%Z]) (rational 3)
           (rationals [1%Z; 2%Z; 3%Z]) (rationals [1%Z; 0%Z; (-1)%Z])
           (rational 2)
           eq_refl eq_refl
           (orthant_dense_fits Qc_scalar (rationals [(-1)%Z]) [])
           (orthant_operator_fits Qc_scalar (rationals [(-1)%Z]) [])
           eq_refl eq_refl).
Defined.

(** * The functions on concrete inputs *)

(** The step on doubles: not strict at the threshold, 1 at a negative zero,
    0 at a NaN. *)
Example gt_on_doubles :
  (@gt binary64 0 0 = 1 /\ @gt binary64 (-0) 0 = 1 /\
   @gt binary64 (-0.5) 0 = 0 /\ @gt binary64 nan 0 = 0)%float.
Proof. repeat split. Qed.

(** The three blocks of [dpi_dense] for [n = 2], [m = 3]. *)
Example dpi_dense_on_doubles :
  @dpi_dense binary64 (orthant_projection binary64)
    [2%float; 7%float] [1%float; (-1)%float; 0%float] (-3)%float [] =
  Some (@mkMatrix binary64 6 6
    [[1; 0; 0; 0; 0; 0]; [0; 1; 0; 0; 0; 0]; [0; 0; 1; 0; 0; 0];
     [0; 0; 0; 0; 0; 0]; [0; 0; 0; 0; 1; 0]; [0; 0; 0; 0; 0; 0]]%float).
Proof. reflexivity. Qed.

(** [(Q - I) D + I] for [D = diag(1, 0, 1)]. *)
Example M_dense_on_doubles :
  @M_dense binary64 (orthant_projection binary64)
    sample_Q_doubles [] [2%float] [(-1)%float] 3%float =
  Some (@mkMatrix binary64 3 3 [[0; 0; 2]; [3; 1; 5]; [6; 0; 8]]%float).
Proof. reflexivity. Qed.

(** Both forms of [M] send [(1, 2, 3)] to [(6, 20, 30)]. *)
Example operator_and_dense_on_doubles :
  matvec (@M_operator binary64 (orthant_projection binary64)
            sample_Q_doubles [] [2%float] [(-1)%float] 3%float)
         [1; 2; 3]%float = Some [6; 20; 30]%float /\
  (M <- @M_dense binary64 (orthant_projection binary64)
          sample_Q_doubles [] [2%float] [(-1)%float] 3%float ;;
   mat_vec M [1; 2; 3]%float) = Some [6; 20; 30]%float.
Proof. split; reflexivity. Qed.

(** The scenario of the spec: [n = 1], [m = 0], [u = (2.0)], [w = 3.0] and
    [Q] the identity give the identity. *)
Example identity_data_on_doubles :
  @M_dense binary64 (orthant_projection binary64)
    (@setIdentity binary64 2) [] [2%float] [] 3%float = Some (@setIdentity binary64 2).
Proof. reflexivity. Qed.

(** A 3 x 3 [Q] where [N = 4]: no result. *)
Example mismatched_Q_on_doubles :
  @M_dense binary64 (orthant_projection binary64)
    sample_Q_doubles [] [2%float] [1%float; 4%float] 3%float = None.
Proof. reflexivity. Qed.

(** The adjoint entry point solves the system of the matrix it is given,
    not the system of its transpose. *)
Example adjoint_solve_transposes_nothing :
  exists x,
    @_solve_adjoint_derivative_dense Qc_scalar exact_solve
      upper_triangular (rationals [1; 0]%Z) = Some x /\
    mat_vec upper_triangular x = Some (rationals [1; 0]%Z) /\
    mat_vec (transpose upper_triangular) x <> Some (rationals [1; 0]%Z).
Proof.
  eexists. split; [reflexivity |]. split.
  - vm_compute. reflexivity.
  - vm_compute. intros H. discriminate H.
Qed.

(** What the identities above do not say: on doubles the two forms of [M]
    agree up to rounding only (the spec asks for equality "within
    floating-point tolerance").  Here [N = 1], [Q = (0.1)] and [x = (3)]. *)
Example rounding_separates_the_two_forms_on_doubles :
  let Q := @mkMatrix binary64 1 1 [[0x1.999999999999ap-4%float]] in
  exists a b : float,
    matvec (@M_operator binary64 (orthant_projection binary64) Q [] [] []
              3%float) [3%float] = Some [a] /\
    (M <- @M_dense binary64 (orthant_projection binary64) Q [] [] [] 3%float ;;
     mat_vec M [3%float]) = Some [b] /\
    PrimFloat.eqb a b = false.
Proof. do 2 eexists. repeat split. Qed.

(** A 1 x 1 cone block where [|v| = 2]: [dpi_dense] and [M_dense] return
    nothing. *)
Example misfit_block_on_doubles :
  @dpi_dense binary64 (misfit_projection binary64)
    [2%float] [1%float; 4%float] 3%float [] = None /\
  @M_dense binary64 (misfit_projection binary64)
    (@setIdentity binary64 4) [] [2%float] [1%float; 4%float] 3%float = None.
Proof. split; reflexivity. Qed.
